(** * authenticityfinder: points of interest along a driving route

    A shallow embedding of [authenticityfinder.py].

    - Python numbers.  The program computes with Python [float]s, which are
      IEEE 754 binary64 values.  The numeric code is written once, over the
      class [Number] of the operations it uses, and instantiated twice:
      [binary64] (Rocq's primitive floats, what the interpreter executes) and
      [exact] (rationals, the idealised arithmetic of the specification's
      formulas).  The properties of the code are proved for every instance,
      hence for [binary64], or evaluated in [binary64]; [exact] is kept for
      comparison, and the places where the two part are shown.
    - JSON bodies are typed records following the providers' schemas, with
      numbers already of the number type (an [int] distance divided by the
      [float] 1609.34 is first converted to [float]).  The one subscript
      that can fail on a well-shaped body, [route['routes'][0]] on an empty
      list, raises [IndexError].
    - [self.waypoints] is object state: [calculate_waypoints] takes and
      returns the [Route] object.
    - Console and network effects run in a small state-and-exception monad
      [IO] over a [World] that records the events of the run. *)

From Stdlib Require Import ZArith QArith Qround Floats List Lia Lqa.
From stdpp Require Import base option list strings gmap pretty.

(** ** Python numbers *)

Class Number (T : Type) := {
  of_int : Z -> T;          (* an [int] operand promoted to this type *)
  miles_const : T;          (* the literal [1609.34] *)
  add : T -> T -> T;        (* [+] *)
  sub : T -> T -> T;        (* [-] *)
  mul : T -> T -> T;        (* [*] *)
  div : T -> T -> T;        (* [/] *)
  ge : T -> T -> bool       (* [>=] *)
}.

(** Python's [float(z)] for an [int] [z]: the binary64 value nearest to
    [z], ties to even.  (Beyond the binary64 range Python raises
    [OverflowError] where this gives an infinity; the program converts only
    the literals 0 and 25.) *)
Definition float_of_int (z : Z) : float :=
  SF2Prim (binary_normalize prec emax z 0 false).

(** Python's [float].  The literal [1609.34] denotes the binary64 value
    closest to it, written here in hexadecimal so that nothing is rounded
    when the file is read (in decimal it prints as 1609.3399999999999).
    [x >= y] is false when either side is a NaN, as [PrimFloat.leb] is. *)
#[export] Instance binary64 : Number float := {|
  of_int := float_of_int;
  miles_const := 0x1.9255c28f5c28fp+10%float;
  add := PrimFloat.add;
  sub := PrimFloat.sub;
  mul := PrimFloat.mul;
  div := PrimFloat.div;
  ge := fun x y => PrimFloat.leb y x
|}.

(** Exact arithmetic, with [1609.34] the rational 160934/100.  This is not
    the arithmetic of the program: it rounds nothing, and its constant is
    not the binary64 value the literal denotes.  It serves to compare the
    run with the formulas of the specification; no property of the code is
    claimed on it alone. *)
#[export] Instance exact : Number Q := {|
  of_int := inject_Z;
  miles_const := (160934 # 100)%Q;
  add := Qplus;
  sub := Qminus;
  mul := Qmult;
  div := Qdiv;
  ge := fun x y => Qle_bool y x
|}.

(** ** Data model *)

(** Python exceptions the modelled code can raise. *)
Inductive exn : Type :=
  | IndexError     (* [route['routes'][0]] on an empty list *)
  | ValueError     (* [float(s)] on a string that is no number *)
  | EOFError.      (* [input()] at the end of standard input *)

Inductive outcome (A : Type) : Type :=
  | Returned (a : A)
  | Raised (e : exn).
Arguments Returned {A} a.
Arguments Raised {A} e.

Section Model.
Context {T : Type} `{Number T}.

(** A [(lat, lng)] tuple. *)
Definition Location : Type := (T * T)%type.

(** [routes[0].legs[*].steps[*]]: only [distance.value] and
    [end_location.{lat,lng}] are read. *)
Record Step := {
  distance_value : T;
  end_location_lat : T;
  end_location_lng : T
}.
Record Leg := { steps : list Step }.
Record RouteEntry := { legs : list Leg }.
Record Directions := { routes : list RouteEntry }.

(** The [Route] object. *)
Record Route := {
  startloc : string;
  endloc : string;
  waypoints : list Location
}.

(** [Route.__init__] *)
Definition Route_init (startloc endloc : string) : Route :=
  {| startloc := startloc; endloc := endloc; waypoints := [] |}.

Definition set_waypoints (self : Route) (ws : list Location) : Route :=
  {| startloc := startloc self; endloc := endloc self; waypoints := ws |}.

(** ** [Route.calculate_waypoints] *)

(** The body of the inner [for step in leg['steps']] loop, on the pair
    [(accumulated_distance, self.waypoints)]. *)
Definition step_body (interval_miles : T) (st : T * list Location) (step : Step)
  : T * list Location :=
  let '(accumulated_distance, wps) := st in
  let step_distance := div (distance_value step) miles_const in
  let accumulated_distance := add accumulated_distance step_distance in
  if ge accumulated_distance interval_miles
  then (sub accumulated_distance interval_miles,
        wps ++ [(end_location_lat step, end_location_lng step)])
  else (accumulated_distance, wps).

(** The body of the outer [for leg in ...] loop. *)
Definition leg_body (interval_miles : T) (st : T * list Location) (leg : Leg)
  : T * list Location :=
  fold_left (step_body interval_miles) (steps leg) st.

Definition calculate_waypoints (self : Route) (route : Directions) (interval_miles : T)
  : Route * outcome unit :=
  let self := set_waypoints self [] in
  let accumulated_distance := of_int 0 in
  match routes route with
  | [] => (self, Raised IndexError)
  | route0 :: _ =>
      let st := fold_left (leg_body interval_miles) (legs route0)
                          (accumulated_distance, waypoints self) in
      (set_waypoints self (snd st), Returned tt)
  end.

(** The waypoints an object holds after the call. *)
Definition waypoints_after (self : Route) (route : Directions) (interval_miles : T)
  : list Location :=
  waypoints (fst (calculate_waypoints self route interval_miles)).

(** A directions result with a single route of a single leg. *)
Definition one_leg (ss : list Step) : Directions :=
  {| routes := [ {| legs := [ {| steps := ss |} ] |} ] |}.

(** ** The outside world *)

(** A POI is a JSON object, read with [poi.get('name', ...)]: a dictionary
    from keys to values.  The program reads no key but ['name'] and prints
    its value, so values are strings here. *)
Definition POI : Type := gmap string string.

(** An HTTP response: [response.status_code] and [response.json()]. *)
Record Response (B : Type) := {
  status_code : Z;
  json : B
}.
Arguments status_code {B} r.
Arguments json {B} r.

(** The body of a nearby-search response: [response.json()['results']]. *)
Record Places := { results : list POI }.

(** What a run does to the outside, in order. *)
Inductive event : Type :=
  | EvInput (prompt : string)                               (* [input(prompt)] *)
  | EvPrint (line : string)                                 (* [print(line)] *)
  | EvGetDirections (origin destination key : string)       (* GET directions *)
  | EvGetNearby (location : Location) (radius : T) (keyword key : string).
                                                            (* GET nearbysearch *)

(** The collaborators of a run: the two providers, which answer a request
    knowing how many requests were sent before it, and Python's [float()]
    on strings ([None] when it raises [ValueError]). *)
Record Env := {
  directions_api : nat -> string -> string -> string -> Response Directions;
  places_api : nat -> Location -> T -> string -> string -> Response Places;
  float_of_str : string -> option T
}.

Record World := {
  stdin : list string;      (* the lines still to be read *)
  requests_sent : nat;      (* HTTP requests sent so far *)
  events : list event       (* what happened so far *)
}.

Definition IO (A : Type) : Type := World -> World * outcome A.

Definition io_ret {A} (a : A) : IO A := fun w => (w, Returned a).

Definition io_bind {A B} (m : IO A) (k : A -> IO B) : IO B :=
  fun w => match m w with
           | (w', Returned a) => k a w'
           | (w', Raised e) => (w', Raised e)
           end.

Definition raise {A} (e : exn) : IO A := fun w => (w, Raised e).

(** The world after an event that is no request, and after a request. *)
Definition log (ev : event) (w : World) : World :=
  {| stdin := stdin w; requests_sent := requests_sent w; events := events w ++ [ev] |}.

(** [print(line)] *)
Definition print (line : string) : IO unit :=
  fun w => (log (EvPrint line) w, Returned tt).

(** [input(prompt)] *)
Definition input (prompt : string) : IO string :=
  fun w => match stdin w with
           | [] => (log (EvInput prompt) w, Raised EOFError)
           | line :: rest =>
               ({| stdin := rest; requests_sent := requests_sent w;
                   events := events w ++ [EvInput prompt] |}, Returned line)
           end.

Definition sent (ev : event) (w : World) : World :=
  {| stdin := stdin w; requests_sent := S (requests_sent w); events := events w ++ [ev] |}.

(** [requests.get] on the directions endpoint. *)
Definition get_directions (env : Env) (origin destination key : string)
  : IO (Response Directions) :=
  fun w => (sent (EvGetDirections origin destination key) w,
            Returned (directions_api env (requests_sent w) origin destination key)).

(** [requests.get] on the nearby-search endpoint. *)
Definition get_nearby (env : Env) (location : Location) (radius : T) (keyword key : string)
  : IO (Response Places) :=
  fun w => (sent (EvGetNearby location radius keyword key) w,
            Returned (places_api env (requests_sent w) location radius keyword key)).

(** A [for x in l] loop whose body updates the loop-carried value [s]. *)
Fixpoint for_each {A S} (l : list A) (body : S -> A -> IO S) (s : S) : IO S :=
  match l with
  | [] => io_ret s
  | x :: l' => io_bind (body s x) (for_each l' body)
  end.

(** [x ← m; k] and [m;; k] are stdpp's notations for the bind below. *)
#[export] Instance IO_ret : MRet IO := @io_ret.
#[export] Instance IO_bind : MBind IO := fun A B k m => io_bind m k.

(** ** [Route.fetch_route] *)

(** URL-escaping of the two addresses and the layout of the query string are
    the transport's; the event records the values the request is built from. *)
Definition fetch_route (env : Env) (self : Route) (api_key : string)
  : IO (option Directions) :=
  response ← get_directions env (startloc self) (endloc self) api_key;
  if bool_decide (status_code response = 200%Z)
  then io_ret (Some (json response))
  else print ("Error fetching route: " +:+ pretty (status_code response)) ;;
       io_ret None.

(** ** [POIloc] *)

(** The attributes of [POIloc] and of [UserInputs] carry a prefix, as record
    fields share one name space with those of [Route]. *)
Record POIloc := {
  poi_waypoints : list Location;
  poi_api_key : string;
  poi_keyword : string;
  poi_distoffpath : T       (* distance in meters *)
}.

Definition search_nearby (env : Env) (self : POIloc) (location : Location)
  : IO (list POI) :=
  response ← get_nearby env location (poi_distoffpath self)
                (poi_keyword self) (poi_api_key self);
  if bool_decide (status_code response = 200%Z)
  then io_ret (results (json response))
  else print ("Error fetching POIs: " +:+ pretty (status_code response)) ;;
       io_ret [].

Definition search_waypoints (env : Env) (self : POIloc) : IO (list POI) :=
  for_each (poi_waypoints self)
    (fun poi_results waypoint =>
       results ← search_nearby env self waypoint;
       io_ret (poi_results ++ results))
    [].

(** ** [UserInputs] and [main] *)

Record UserInputs := {
  ui_startloc : string;
  ui_endloc : string;
  ui_keyword : string;
  ui_distoffpath : T
}.

(** [float(s)] *)
Definition to_float (env : Env) (s : string) : IO T :=
  match float_of_str env s with
  | Some x => io_ret x
  | None => raise ValueError
  end.

(** [UserInputs.__init__] *)
Definition UserInputs_init (env : Env) : IO UserInputs :=
  startloc ← input "Enter the starting location: ";
  endloc ← input "Enter the ending location: ";
  keyword ← input "Enter the search keyword (e.g., 'antique stores', 'national parks'): ";
  line ← input "Enter the maximum distance willing to go off the path (in miles): ";
  distoffpath ← to_float env line;
  io_ret {| ui_startloc := startloc; ui_endloc := endloc;
            ui_keyword := keyword; ui_distoffpath := distoffpath |}.

(** Truth value of a command-line argument: [None] and the empty string are
    false. *)
Definition truthy (a : option string) : bool :=
  match a with
  | Some s => bool_decide (s <> "")
  | None => false
  end.

(** Lines 212-220 of [main]: the four inputs, from the arguments when all of
    them are true and from the prompts otherwise.  A true argument is a
    string, so the [default] below is never used. *)
Definition resolve_inputs (env : Env) (startloc endloc keyword distoffpath : option string)
  : IO UserInputs :=
  if negb (forallb truthy [startloc; endloc; keyword; distoffpath])
  then UserInputs_init env
  else
    distoffpath ← to_float env (default "" distoffpath);
    io_ret {| ui_startloc := default "" startloc; ui_endloc := default "" endloc;
              ui_keyword := default "" keyword; ui_distoffpath := distoffpath |}.

(** [poi.get('name', 'No name available')] *)
Definition poi_name (poi : POI) : string :=
  default "No name available" (poi !! "name").

(** Lines 222-239 of [main].  [not route_data] holds for [None] only: a
    well-shaped body is a dictionary with a [routes] key, which is true. *)
Definition run (env : Env) (api_key : string) (inputs : UserInputs) : IO unit :=
  let route := Route_init (ui_startloc inputs) (ui_endloc inputs) in
  route_data ← fetch_route env route api_key;
  match route_data with
  | None => print "Failed to fetch route data."
  | Some route_data =>
      match calculate_waypoints route route_data (of_int 25) with
      | (_, Raised e) => raise e
      | (route, Returned _) =>
          let poi_lookup :=
            {| poi_waypoints := waypoints route; poi_api_key := api_key;
               poi_keyword := ui_keyword inputs;
               poi_distoffpath := mul (ui_distoffpath inputs) miles_const |} in
          poi_results ← search_waypoints env poi_lookup;
          for_each poi_results (fun _ poi => print (poi_name poi)) tt
      end
  end.

Definition main (env : Env) (api_key : string)
    (startloc endloc keyword distoffpath : option string) : IO unit :=
  inputs ← resolve_inputs env startloc endloc keyword distoffpath;
  run env api_key inputs.

(** ** Vocabulary of the properties *)

(** The steps the two nested loops visit, in order. *)
Definition route_steps (route : Directions) : list Step :=
  match routes route with
  | [] => []
  | route0 :: _ => flat_map steps (legs route0)
  end.

(** A step's length in miles, as line 125 computes it. *)
Definition step_miles (step : Step) : T := div (distance_value step) miles_const.

(** The route's total distance in miles: the step lengths added up in route
    order. *)
Definition total_miles (route : Directions) : T :=
  fold_left (fun d step => add d (step_miles step)) (route_steps route) (of_int 0).

(** The sampling loop with a ghost odometer: beside the accumulator and the
    waypoints it keeps the distance travelled so far, and records it with
    each waypoint the moment the waypoint is appended. *)
Definition step_marks (interval_miles : T) (st : T * T * list (T * Location)) (step : Step)
  : T * T * list (T * Location) :=
  let '(travelled, accumulated_distance, marks) := st in
  let travelled := add travelled (step_miles step) in
  let accumulated_distance := add accumulated_distance (step_miles step) in
  if ge accumulated_distance interval_miles
  then (travelled, sub accumulated_distance interval_miles,
        marks ++ [(travelled, (end_location_lat step, end_location_lng step))])
  else (travelled, accumulated_distance, marks).

(** Each waypoint with the cumulative step distance at which it was emitted. *)
Definition waypoint_marks (route : Directions) (interval_miles : T) : list (T * Location) :=
  snd (fold_left (step_marks interval_miles) (route_steps route)
         (of_int 0, of_int 0, [])).


(** Section 4.1 of the specification, for comparison with [step_body]: the
    emission is a [while] loop, here bounded by [fuel] iterations ([None]
    when they do not suffice). *)
Fixpoint spec_emit (fuel : nat) (interval_miles acc : T) (loc : Location)
    (wps : list Location) : option (T * list Location) :=
  match fuel with
  | O => None
  | S fuel' =>
      if ge acc interval_miles
      then spec_emit fuel' interval_miles (sub acc interval_miles) loc (wps ++ [loc])
      else Some (acc, wps)
  end.

Fixpoint spec_sample (fuel : nat) (ss : list Step) (interval_miles acc : T)
    (wps : list Location) : option (list Location) :=
  match ss with
  | [] => Some wps
  | step :: ss' =>
      match spec_emit fuel interval_miles (add acc (step_miles step))
              (end_location_lat step, end_location_lng step) wps with
      | Some (acc', wps') => spec_sample fuel ss' interval_miles acc' wps'
      | None => None
      end
  end.

(** The response to the search around [location] when it is request number
    [n] of the run. *)
Definition nearby_response (env : Env) (self : POIloc) (n : nat) (location : Location)
  : Response Places :=
  places_api env n location (poi_distoffpath self) (poi_keyword self) (poi_api_key self).

(** What one search contributes: its result list on status 200, nothing
    otherwise. *)
Definition contribution (r : Response Places) : list POI :=
  if bool_decide (status_code r = 200%Z) then results (json r) else [].

(** The contributions of the searches around [ws], the first of which is
    request number [n], concatenated in waypoint order. *)
Fixpoint found (env : Env) (self : POIloc) (n : nat) (ws : list Location) : list POI :=
  match ws with
  | [] => []
  | wp :: ws' => contribution (nearby_response env self n wp) ++ found env self (S n) ws'
  end.

(** The events of those searches: one request per waypoint, followed by the
    error line when its status is not 200. *)
Fixpoint search_events (env : Env) (self : POIloc) (n : nat) (ws : list Location)
  : list event :=
  match ws with
  | [] => []
  | wp :: ws' =>
      let r := nearby_response env self n wp in
      EvGetNearby wp (poi_distoffpath self) (poi_keyword self) (poi_api_key self)
      :: (if bool_decide (status_code r = 200%Z) then []
          else [EvPrint ("Error fetching POIs: " +:+ pretty (status_code r))])
      ++ search_events env self (S n) ws'
  end.

(** The response to the directions request of a run with these inputs, when
    it is request number [n]. *)
Definition route_response (env : Env) (api_key : string) (inputs : UserInputs) (n : nat)
  : Response Directions :=
  directions_api env n (ui_startloc inputs) (ui_endloc inputs) api_key.

(** The output of lines 238-239 for a list of results. *)
Definition name_lines (pois : list POI) : list event :=
  map (fun poi => EvPrint (poi_name poi)) pois.

(** The locations searched and the lines printed in a sequence of events. *)
Definition searched (evs : list event) : list Location :=
  flat_map (fun ev => match ev with EvGetNearby l _ _ _ => [l] | _ => [] end) evs.

Definition printed (evs : list event) : list string :=
  flat_map (fun ev => match ev with EvPrint l => [l] | _ => [] end) evs.

End Model.

Arguments Step T : clear implicits.
Arguments Leg T : clear implicits.
Arguments RouteEntry T : clear implicits.
Arguments Directions T : clear implicits.
Arguments Route T : clear implicits.
Arguments Location T : clear implicits.
Arguments POIloc T : clear implicits.
Arguments UserInputs T : clear implicits.
Arguments event T : clear implicits.
Arguments Env T : clear implicits.
Arguments World T : clear implicits.
Arguments IO T : clear implicits.
Arguments status_code {B} r.
Arguments json {B} r.
Arguments Returned {A} a.
Arguments Raised {A} e.

(** ** Vocabulary of the properties in exact arithmetic *)

Section ExactVocabulary.
Local Open Scope Q_scope.

(** Distances are non-negative (the data model's [distance_meters]). *)
Definition nonneg_steps (ss : list (Step Q)) : Prop :=
  Forall (fun s => 0 <= distance_value s) ss.

(** The odometer of [total_miles], from a start value [d]. *)
Definition miles_from (d : Q) (ss : list (Step Q)) : Q :=
  fold_left (fun d step => add d (step_miles step)) ss d.

(** The accumulator is the distance travelled minus one interval per
    waypoint, and waypoint number [k+1] was appended no earlier than
    [(k+1) * interval_miles] miles into the route. *)
Definition marks_ok (i : Q) (st : Q * Q * list (Q * Location Q)) : Prop :=
  let '(travelled, a, ms) := st in
  a + inject_Z (Z.of_nat (length ms)) * i == travelled
  /\ forall (k : nat) m l, ms !! k = Some (m, l) -> inject_Z (Z.of_nat (S k)) * i <= m.

(** No step is longer than the interval. *)
Definition short_steps (i : Q) (ss : list (Step Q)) : Prop :=
  Forall (fun s => 0 <= distance_value s /\ step_miles s <= i) ss.

End ExactVocabulary.

(** ** Scenarios *)

Definition step_at {T : Type} (meters lat lng : T) : Step T :=
  {| distance_value := meters; end_location_lat := lat; end_location_lng := lng |}.


(** One step of 120700.5 m, which is 3 * 25 * 1609.34, ending at (1,1). *)
Definition three_intervals_f : Directions float :=
  one_leg [step_at 120700.5%float 1%float 1%float].
Definition three_intervals_q : Directions Q :=
  one_leg [step_at (1207005 # 10)%Q 1%Q 1%Q].

(** One step of 160934 m (100 miles) ending at (1,1). *)
Definition hundred_miles_f : Directions float :=
  one_leg [step_at 160934%float 1%float 1%float].
Definition hundred_miles_q : Directions Q :=
  one_leg [step_at 160934%Q 1%Q 1%Q].

(** A step of 65000 m ending at (1,1), then one of 25000 m ending at (2,2):
    about 40.4 and 15.5 miles. *)
Definition two_steps_f : Directions float :=
  one_leg [step_at 65000%float 1%float 1%float; step_at 25000%float 2%float 2%float].
Definition two_steps_q : Directions Q :=
  one_leg [step_at 65000%Q 1%Q 1%Q; step_at 25000%Q 2%Q 2%Q].

(** Two steps of 10000 m (about 6.2 miles each). *)
Definition short_route_q : Directions Q :=
  one_leg [step_at 10000%Q 1%Q 1%Q; step_at 10000%Q 2%Q 2%Q].

(** Three steps of 50000 m (about 31.1 miles each), ending at (1,1), (2,2)
    and (3,3): sampled every 25 miles, each leaves a waypoint. *)
Definition three_steps_f : Directions float :=
  one_leg [step_at 50000%float 1%float 1%float; step_at 50000%float 2%float 2%float;
           step_at 50000%float 3%float 3%float].

(** A run's collaborators.  The directions provider knows no route from
    ["nowhere"] (status 404, and a body without routes), finds none from
    ["island"] (status 200, and a body without routes) and answers
    [three_steps_f] otherwise.  The places provider fails the request
    numbered 2 with status 500; at number 1 it finds a named and an unnamed
    place, at any other number one named place.  [float()] reads ["5"]. *)
Definition demo_env : Env float := {|
  directions_api := fun _ origin _ _ =>
    if String.eqb origin "nowhere"
    then {| status_code := 404; json := {| routes := [] |} |}
    else if String.eqb origin "island"
    then {| status_code := 200; json := {| routes := [] |} |}
    else {| status_code := 200; json := three_steps_f |};
  places_api := fun n _ _ _ _ =>
    match n with
    | 1%nat => {| status_code := 200;
                  json := {| results := [ {[ "name" := "Cafe 1" ]}; ∅ ] |} |}
    | 2%nat => {| status_code := 500; json := {| results := [ {[ "name" := "Cafe 2" ]} ] |} |}
    | _ => {| status_code := 200; json := {| results := [ {[ "name" := "Cafe 3" ]} ] |} |}
    end;
  float_of_str := fun s => if String.eqb s "5" then Some 5%float else None
|}.

(** The world before a run started with all four arguments given. *)
Definition fresh_world : World float :=
  {| stdin := []; requests_sent := 0; events := [] |}.

(** The world once the directions request of such a run has been answered. *)
Definition routed_world : World float :=
  sent (EvGetDirections "a" "b" "key") fresh_world.

Definition demo_lookup : POIloc float :=
  {| poi_waypoints := [(1%float, 1%float); (2%float, 2%float); (3%float, 3%float)];
     poi_api_key := "key"; poi_keyword := "cafe";
     poi_distoffpath := mul 5%float miles_const |}.

(** ** Further vocabulary *)

(** The four prompts of [UserInputs], in the order [__init__] shows them. *)
Definition prompts : list string :=
  ["Enter the starting location: ";
   "Enter the ending location: ";
   "Enter the search keyword (e.g., 'antique stores', 'national parks'): ";
   "Enter the maximum distance willing to go off the path (in miles): "].

Section FurtherVocabulary.
Context {T : Type} `{Number T}.

(** The tuple line 129 appends for a step. *)
Definition step_end (step : Step T) : Location T :=
  (end_location_lat step, end_location_lng step).

(** The [POIloc] object line 234 builds for the waypoints [ws]. *)
Definition lookup_of (api_key : string) (inputs : UserInputs T) (ws : list (Location T))
  : POIloc T :=
  {| poi_waypoints := ws; poi_api_key := api_key; poi_keyword := ui_keyword inputs;
     poi_distoffpath := mul (ui_distoffpath inputs) miles_const |}.

(** The same object searching other waypoints. *)
Definition with_waypoints (self : POIloc T) (ws : list (Location T)) : POIloc T :=
  {| poi_waypoints := ws; poi_api_key := poi_api_key self;
     poi_keyword := poi_keyword self; poi_distoffpath := poi_distoffpath self |}.

(** A nearby-search request carries the radius, keyword and key of [self];
    every other event passes. *)
Definition carries (self : POIloc T) (ev : event T) : Prop :=
  match ev with
  | EvGetNearby _ radius keyword key =>
      radius = poi_distoffpath self /\ keyword = poi_keyword self
      /\ key = poi_api_key self
  | _ => True
  end.

(** The prompts shown in a sequence of events. *)
Definition prompted (evs : list (event T)) : list string :=
  flat_map (fun ev => match ev with EvInput p => [p] | _ => [] end) evs.


(** Its value after each step of [ss] in turn. *)
Fixpoint running_totals_from (a : T) (ss : list (Step T)) : list T :=
  match ss with
  | [] => []
  | step :: ss' =>
      add a (step_miles step) :: running_totals_from (add a (step_miles step)) ss'
  end.

(** Below the interval: the test of line 128 fails. *)
Definition below (interval_miles t : T) : Prop := ge t interval_miles = false.

(** The waypoints the loop appends when it is entered with accumulator [a]. *)
Definition emitted (interval_miles a : T) (ss : list (Step T)) : list (Location T) :=
  snd (fold_left (step_body interval_miles) ss (a, [])).


(** Not negative: [x >= 0] holds (so [x] is no NaN either). *)
Definition not_negative (x : T) : Prop := ge x (of_int 0) = true.

(** No step has a negative distance. *)
Definition no_negative_distance (ss : list (Step T)) : Prop :=
  Forall (fun s => not_negative (distance_value s)) ss.

End FurtherVocabulary.

(** The facts about [>=], [+], [-] and [/ 1609.34] on which the sampling
    loop relies when distances are not negative.  [binary64] has them
    although it rounds ([binary64_order]), and so has [exact]
    ([exact_order]). *)
Class NumberOrder (T : Type) `{Number T} : Prop := {
  order_zero : not_negative (of_int 0);
  order_refl (x : T) : not_negative x -> ge x x = true;
  order_trans (x y z : T) : ge x y = true -> ge y z = true -> ge x z = true;
  order_div (d : T) : not_negative d -> not_negative (div d miles_const);
  order_add (a d : T) : not_negative a -> not_negative d -> ge (add a d) a = true;
  order_sub (x i : T) :
    not_negative x -> ge (of_int 0) i = true -> not_negative (sub x i)
}.

(** ** Vocabulary of binary64 values *)

(** A binary64 value, seen through [Prim2SF], that is zero (of either sign),
    positive or plus infinity. *)
Definition sf_nonneg (x : spec_float) : Prop :=
  match x with
  | S754_zero _ => True
  | S754_infinity s | S754_finite s _ _ => s = false
  | S754_nan => False
  end.

(** One that is zero, negative or minus infinity. *)
Definition sf_nonpos (x : spec_float) : Prop :=
  match x with
  | S754_zero _ => True
  | S754_infinity s | S754_finite s _ _ => s = true
  | S754_nan => False
  end.

(** ** Further scenarios *)

(** Collaborators for a short trip: the directions provider answers one
    step of 10000 m (about 6.2 miles), and the places provider answers every
    search with status 200 and the same two places. *)
Definition steady_env : Env float := {|
  directions_api := fun _ _ _ _ =>
    {| status_code := 200;
       json := one_leg [step_at 10000%float 1%float 1%float] |};
  places_api := fun _ _ _ _ _ =>
    {| status_code := 200;
       json := {| results := [ {[ "name" := "Diner" ]}; {[ "name" := "Museum" ]} ] |} |};
  float_of_str := fun s => if String.eqb s "5" then Some 5%float else None
|}.



(** Thirteen steps of whole metres, 80467 m in all, which is 50 miles; the
    longest, 23281 m, is about 14.5 miles. *)
Definition fifty_miles_f : Directions float :=
  one_leg (map (fun m => step_at (float_of_int m) 0%float 0%float)
             [4833; 6866; 1373; 4602; 3695; 5685; 6550; 5864; 6748; 3432; 2142;
              5396; 23281]%Z).

(** A step of 1196 m, then one of 39037.49999999999 m (the binary64 value
    [0x1.30fafffffffffp+15]), 40233.49999999999 m in all: a rounding error
    short of 25 miles.  [nearly_one_interval_q] holds the same two values
    as rationals. *)
Definition nearly_one_interval_f : Directions float :=
  one_leg [step_at 1196%float 1%float 1%float;
           step_at 0x1.30fafffffffffp+15%float 2%float 2%float].
Definition nearly_one_interval_q : Directions Q :=
  one_leg [step_at 1196%Q 1%Q 1%Q;
           step_at (5365273146163199 # 137438953472)%Q 2%Q 2%Q].

(** The inputs of a run from ["a"] to ["b"] looking for cafes within 5
    miles. *)
Definition demo_inputs : UserInputs float :=
  {| ui_startloc := "a"; ui_endloc := "b"; ui_keyword := "cafe";
     ui_distoffpath := 5%float |}.

(** * Properties *)

(** ** Structure of the sampling loop, for every number type *)

Section Structure.
Context {T : Type} `{Number T}.

Lemma legs_fold (i : T) (ls : list (Leg T)) (st : T * list (Location T)) :
  fold_left (leg_body i) ls st = fold_left (step_body i) (flat_map steps ls) st.
Proof.
  revert st. induction ls as [|l ls IH]; intros st; simpl; [reflexivity|].
  rewrite fold_left_app. apply IH.
Qed.

Lemma calculate_waypoints_steps (self : Route T) (route : Directions T) (i : T) :
  waypoints_after self route i
  = snd (fold_left (step_body i) (route_steps route) (of_int 0, [])).
Proof.
  unfold waypoints_after, calculate_waypoints, route_steps.
  destruct (routes route) as [|r0 rs]; simpl; [reflexivity|].
  now rewrite legs_fold.
Qed.

(** One step appends nothing or its own end location. *)
Lemma step_body_grows (i : T) (st : T * list (Location T)) (s : Step T) :
  snd (step_body i st s) = snd st \/
  snd (step_body i st s) = snd st ++ [(end_location_lat s, end_location_lng s)].
Proof.
  destruct st as [a w]. unfold step_body.
  destruct (ge _ _); simpl; [right|left]; reflexivity.
Qed.

Lemma steps_fold_length (i : T) (ss : list (Step T)) (st : T * list (Location T)) :
  (length (snd (fold_left (step_body i) ss st)) <= length (snd st) + length ss)%nat.
Proof.
  revert st. induction ss as [|s ss IH]; intros st; simpl; [lia|].
  specialize (IH (step_body i st s)).
  destruct (step_body_grows i st s) as [E|E]; rewrite E in IH;
    [|rewrite length_app in IH; simpl in IH]; lia.
Qed.

Lemma no_steps_no_waypoints (self : Route T) (route : Directions T) (i : T) :
  route_steps route = [] -> waypoints_after self route i = [].
Proof. intros E. rewrite calculate_waypoints_steps, E. reflexivity. Qed.

(** The ghost odometer does not change the loop: forgetting it gives the
    accumulator and the waypoints of [step_body]. *)
Lemma step_marks_erase (i : T) (ss : list (Step T)) (c a : T)
    (ms : list (T * Location T)) :
  (snd (fst (fold_left (step_marks i) ss (c, a, ms))),
   map snd (snd (fold_left (step_marks i) ss (c, a, ms))))
  = fold_left (step_body i) ss (a, map snd ms).
Proof.
  revert c a ms. induction ss as [|s ss IH]; intros c a ms; simpl; [reflexivity|].
  unfold step_miles.
  destruct (ge (add a (div (distance_value s) miles_const)) i); rewrite IH.
  - now rewrite map_app.
  - reflexivity.
Qed.

Lemma waypoint_marks_erase (self : Route T) (route : Directions T) (i : T) :
  map snd (waypoint_marks route i) = waypoints_after self route i.
Proof.
  rewrite calculate_waypoints_steps. unfold waypoint_marks.
  now rewrite <- (step_marks_erase i (route_steps route) (of_int 0) (of_int 0) []).
Qed.

(** C10. Each step appends at most one waypoint, so a call never yields more
    waypoints than the route has steps over all its legs; and as the list is
    reset on entry, the waypoints after the call do not depend on the object
    the method was called on. *)
Theorem calculate_waypoints_one_per_step
    (self self' : Route T) (route : Directions T) (interval_miles : T) :
  (forall st step,
     length (snd (step_body interval_miles st step)) <= S (length (snd st)))%nat
  /\ (length (waypoints_after self route interval_miles)
      <= length (route_steps route))%nat
  /\ waypoints_after self route interval_miles
     = waypoints_after self' route interval_miles.
Proof.
  split; [|split].
  - intros st step.
    destruct (step_body_grows interval_miles st step) as [E|E]; rewrite E;
      [|rewrite length_app; simpl]; lia.
  - rewrite calculate_waypoints_steps.
    pose proof (steps_fold_length interval_miles (route_steps route) (of_int 0, [])) as L.
    simpl in L. exact L.
  - now rewrite !calculate_waypoints_steps.
Qed.


End Structure.

(** ** Arithmetic of the sampling loop, in exact arithmetic *)

Section Exact.
Local Open Scope Q_scope.

Lemma step_miles_nonneg (s : Step Q) : 0 <= distance_value s -> 0 <= step_miles s.
Proof.
  intros Hs. unfold step_miles. simpl.
  apply Qle_shift_div_l; [reflexivity|]. now rewrite Qmult_0_l.
Qed.

Lemma miles_from_ge (ss : list (Step Q)) (d : Q) :
  nonneg_steps ss -> d <= miles_from d ss.
Proof.
  revert d. induction ss as [|s ss IH]; intros d Hss; simpl.
  - apply Qle_refl.
  - inversion Hss as [|? ? Hs Hss']; subst.
    apply Qle_trans with (d + step_miles s).
    + pose proof (step_miles_nonneg s Hs). lra.
    + apply IH; assumption.
Qed.

Lemma miles_from_shift (ss : list (Step Q)) (d : Q) :
  miles_from d ss == d + miles_from 0 ss.
Proof.
  revert d. induction ss as [|s ss IH]; intros d.
  - unfold miles_from; simpl. lra.
  - change (miles_from d (s :: ss)) with (miles_from (d + step_miles s) ss).
    change (miles_from 0 (s :: ss)) with (miles_from (0 + step_miles s) ss).
    rewrite (IH (d + step_miles s)), (IH (0 + step_miles s)). lra.
Qed.

Lemma step_body_exact (i a : Q) (w : list (Location Q)) (s : Step Q) :
  step_body i (a, w) s
  = if Qle_bool i (a + step_miles s)
    then (a + step_miles s - i, w ++ [(end_location_lat s, end_location_lng s)])
    else (a + step_miles s, w).
Proof. reflexivity. Qed.

(** While the odometer stays below the interval nothing is emitted. *)
Lemma below_interval_no_waypoint (i : Q) (ss : list (Step Q)) (a : Q)
    (w : list (Location Q)) :
  nonneg_steps ss -> miles_from a ss < i ->
  fold_left (step_body i) ss (a, w) = (miles_from a ss, w).
Proof.
  revert a. induction ss as [|s ss IH]; intros a Hss Hlt; [reflexivity|].
  inversion Hss as [|? ? Hs Hss']; subst.
  change (miles_from a (s :: ss)) with (miles_from (a + step_miles s) ss) in *.
  cbn [fold_left]. rewrite step_body_exact.
  assert (Hle : a + step_miles s <= miles_from (a + step_miles s) ss)
    by (apply miles_from_ge; assumption).
  destruct (Qle_bool i (a + step_miles s)) eqn:E.
  - apply Qle_bool_iff in E. lra.
  - apply IH; assumption.
Qed.

(** In exact arithmetic a route without steps yields no waypoint, and so
    does a route whose total distance in miles is strictly below the
    interval.  Where that total is within a rounding error of the interval,
    the total the binary64 run accumulates can reach it: see
    [rounding_reaches_interval]. *)
Theorem calculate_waypoints_empty
    (self : Route Q) (route : Directions Q) (interval_miles : Q) :
  (route_steps route = [] -> waypoints_after self route interval_miles = [])
  /\ (nonneg_steps (route_steps route) ->
      total_miles route < interval_miles ->
      waypoints_after self route interval_miles = []).
Proof.
  split.
  - apply no_steps_no_waypoints.
  - intros Hss Hlt. rewrite calculate_waypoints_steps.
    change (total_miles route) with (miles_from (of_int 0) (route_steps route)) in Hlt.
    now rewrite below_interval_no_waypoint.
Qed.

(** *** Bookkeeping of the odometer *)

Lemma inject_S (n : nat) : inject_Z (Z.of_nat (S n)) == inject_Z (Z.of_nat n) + 1.
Proof. rewrite Nat2Z.inj_succ, <- Z.add_1_r, inject_Z_plus. reflexivity. Qed.

Lemma step_marks_ok (i : Q) (st : Q * Q * list (Q * Location Q)) (s : Step Q) :
  marks_ok i st -> marks_ok i (step_marks i st s).
Proof.
  destruct st as [[c a] ms]. intros [Hc Hms]. unfold step_marks.
  set (d := step_miles s). clearbody d.
  set (n := inject_Z (Z.of_nat (length ms))) in Hc.
  change (ge (add a d) i) with (Qle_bool i (a + d)).
  change (add c d) with (c + d). change (add a d) with (a + d).
  destruct (Qle_bool i (a + d)) eqn:E.
  - apply Qle_bool_iff in E. change (sub (a + d) i) with (a + d - i).
    split.
    + rewrite length_app, Nat.add_1_r, inject_S. fold n. clearbody n. nra.
    + intros k m l Hk.
      destruct (decide (k < length ms)%nat) as [Hlt|Hge].
      * rewrite lookup_app_l in Hk by assumption. now apply (Hms k m l).
      * rewrite lookup_app_r in Hk by lia.
        destruct (k - length ms)%nat as [|j] eqn:Ej; [|destruct j; discriminate].
        injection Hk as <- <-.
        replace k with (length ms) by lia. rewrite inject_S. fold n. clearbody n. nra.
  - split; [fold n; clearbody n; lra | exact Hms].
Qed.

Lemma fold_marks_ok (i : Q) (ss : list (Step Q)) (st : Q * Q * list (Q * Location Q)) :
  marks_ok i st -> marks_ok i (fold_left (step_marks i) ss st).
Proof.
  revert st. induction ss as [|s ss IH]; intros st Hst; [exact Hst|].
  cbn [fold_left]. apply IH, step_marks_ok, Hst.
Qed.

(** In exact arithmetic the waypoints are the marked locations in order,
    and the waypoint at list index [k] is emitted at a cumulative step
    distance of at least [(k+1) * interval_miles].  Rounding breaks this
    bound in binary64: see the examples of the binary64 run. *)
Theorem waypoint_marks_lower_bound
    (self : Route Q) (route : Directions Q) (interval_miles : Q) :
  map snd (waypoint_marks route interval_miles)
  = waypoints_after self route interval_miles
  /\ forall (k : nat) m l,
       waypoint_marks route interval_miles !! k = Some (m, l) ->
       inject_Z (Z.of_nat (S k)) * interval_miles <= m.
Proof.
  split; [apply waypoint_marks_erase|].
  unfold waypoint_marks.
  pose proof (fold_marks_ok interval_miles (route_steps route) (of_int 0, of_int 0, [])) as Hok.
  destruct (fold_left _ _ _) as [[c a] ms]. simpl. apply Hok.
  split; [change (0 + 0 * interval_miles == 0); ring
         | intros k m l Hk; destruct k; discriminate].
Qed.

(** *** Where the code meets the floor formula *)

Lemma short_steps_fold (i : Q) (ss : list (Step Q)) (a : Q) (w : list (Location Q)) :
  0 <= a -> a < i -> short_steps i ss ->
  exists a' w',
    fold_left (step_body i) ss (a, w) = (a', w')
    /\ 0 <= a' /\ a' < i
    /\ a' + inject_Z (Z.of_nat (length w')) * i
       == a + miles_from 0 ss + inject_Z (Z.of_nat (length w)) * i.
Proof.
  revert a w. induction ss as [|s ss IH]; intros a w Ha0 Hai Hss.
  - exists a, w. repeat split; try assumption.
    change (miles_from 0 []) with 0. ring.
  - inversion Hss as [|? ? [Hs Hd] Hss']; subst.
    pose proof (step_miles_nonneg s Hs) as Hd0.
    pose proof (miles_from_shift ss (0 + step_miles s)) as Hsh.
    change (miles_from (0 + step_miles s) ss) with (miles_from 0 (s :: ss)) in Hsh.
    cbn [fold_left]. rewrite step_body_exact.
    set (d := step_miles s) in *. clearbody d.
    set (M := miles_from 0 (s :: ss)) in *. clearbody M.
    set (M' := miles_from 0 ss) in *.
    destruct (Qle_bool i (a + d)) eqn:E.
    + apply Qle_bool_iff in E.
      destruct (IH (a + d - i) (w ++ [(end_location_lat s, end_location_lng s)]))
        as (a' & w' & Hf & H0 & Hi & Hb); [lra | lra | assumption |].
      exists a', w'. repeat split; try assumption.
      rewrite Hb, length_app, Nat.add_1_r, inject_S. fold M'. clearbody M'.
      generalize (inject_Z (Z.of_nat (length w))). intros n. nra.
    + assert (a + d < i) as E'.
      { apply Qnot_le_lt. intros C. apply Qle_bool_iff in C. congruence. }
      destruct (IH (a + d) w) as (a' & w' & Hf & H0 & Hi & Hb);
        [lra | lra | assumption |].
      exists a', w'. repeat split; try assumption.
      rewrite Hb. fold M'. clearbody M'.
      generalize (inject_Z (Z.of_nat (length w))). intros n. nra.
Qed.

Lemma Qfloor_unique (x : Q) (n : Z) :
  inject_Z n <= x -> x < inject_Z n + 1 -> Qfloor x = n.
Proof.
  intros Hle Hlt.
  assert (n <= Qfloor x)%Z as H1.
  { rewrite <- (Qfloor_Z n). now apply Qfloor_resp_le. }
  assert (Qfloor x < n + 1)%Z as H2.
  { rewrite Zlt_Qlt, inject_Z_plus.
    apply Qle_lt_trans with x; [apply Qfloor_le | exact Hlt]. }
  lia.
Qed.

(** In exact arithmetic, on a route none of whose steps is longer than the
    interval, the number of waypoints is the floor of the total distance
    over the interval.  Not so in binary64: see the examples of the
    binary64 run. *)
Lemma short_steps_floor (self : Route Q) (route : Directions Q) (interval_miles : Q) :
  0 < interval_miles ->
  short_steps interval_miles (route_steps route) ->
  Z.of_nat (length (waypoints_after self route interval_miles))
  = Qfloor (total_miles route / interval_miles).
Proof.
  intros Hi Hss. rewrite calculate_waypoints_steps.
  destruct (short_steps_fold interval_miles (route_steps route) 0 [])
    as (a' & w' & Hf & H0 & Hlt & Hb); [lra | exact Hi | exact Hss |].
  change (of_int 0) with 0. rewrite Hf. cbn [snd].
  change (total_miles route) with (miles_from 0 (route_steps route)).
  revert Hb. generalize (miles_from 0 (route_steps route)). intros M Hb.
  change (inject_Z (Z.of_nat (@length (Location Q) []))) with 0 in Hb.
  symmetry. apply Qfloor_unique.
  - apply Qle_shift_div_l; [exact Hi|].
    revert Hb. generalize (inject_Z (Z.of_nat (length w'))). intros n Hb. nra.
  - apply Qlt_shift_div_r; [exact Hi|].
    revert Hb. generalize (inject_Z (Z.of_nat (length w'))). intros n Hb. nra.
Qed.

(** The accumulator never goes negative on non-negative distances, and
    with the waypoints emitted so far it accounts for the whole distance. *)
Lemma nonneg_steps_fold (i : Q) (ss : list (Step Q)) (a : Q) (w : list (Location Q)) :
  0 <= a -> nonneg_steps ss ->
  exists a' w',
    fold_left (step_body i) ss (a, w) = (a', w')
    /\ 0 <= a'
    /\ a' + inject_Z (Z.of_nat (length w')) * i
       == a + miles_from 0 ss + inject_Z (Z.of_nat (length w)) * i.
Proof.
  revert a w. induction ss as [|s ss IH]; intros a w Ha0 Hss.
  - exists a, w. repeat split; try assumption.
    change (miles_from 0 []) with 0. ring.
  - inversion Hss as [|? ? Hs Hss']; subst.
    pose proof (step_miles_nonneg s Hs) as Hd0.
    pose proof (miles_from_shift ss (0 + step_miles s)) as Hsh.
    change (miles_from (0 + step_miles s) ss) with (miles_from 0 (s :: ss)) in Hsh.
    cbn [fold_left]. rewrite step_body_exact.
    set (d := step_miles s) in *. clearbody d.
    set (M := miles_from 0 (s :: ss)) in *. clearbody M.
    set (M' := miles_from 0 ss) in *.
    destruct (Qle_bool i (a + d)) eqn:E.
    + apply Qle_bool_iff in E.
      destruct (IH (a + d - i) (w ++ [(end_location_lat s, end_location_lng s)]))
        as (a' & w' & Hf & H0 & Hb); [lra | assumption |].
      exists a', w'. repeat split; try assumption.
      rewrite Hb, length_app, Nat.add_1_r, inject_S. fold M'. clearbody M'.
      generalize (inject_Z (Z.of_nat (length w))). intros n. nra.
    + destruct (IH (a + d) w) as (a' & w' & Hf & H0 & Hb); [lra | assumption |].
      exists a', w'. repeat split; try assumption.
      rewrite Hb. fold M'. clearbody M'.
      generalize (inject_Z (Z.of_nat (length w))). intros n. nra.
Qed.

(** In exact arithmetic, on any route with non-negative distances and for
    a positive interval, the call never leaves more waypoints than the
    floor of the total distance over the interval.  Not so in binary64: see
    the examples of the binary64 run. *)
Lemma waypoints_at_most_floor (self : Route Q) (route : Directions Q) (interval_miles : Q) :
  0 < interval_miles ->
  nonneg_steps (route_steps route) ->
  (Z.of_nat (length (waypoints_after self route interval_miles))
   <= Qfloor (total_miles route / interval_miles))%Z.
Proof.
  intros Hi Hss. rewrite calculate_waypoints_steps.
  destruct (nonneg_steps_fold interval_miles (route_steps route) 0 [])
    as (a' & w' & Hf & H0 & Hb); [lra | exact Hss |].
  change (of_int 0) with 0. rewrite Hf. cbn [snd].
  change (total_miles route) with (miles_from 0 (route_steps route)).
  revert Hb. generalize (miles_from 0 (route_steps route)). intros M Hb.
  change (inject_Z (Z.of_nat (@length (Location Q) []))) with 0 in Hb.
  rewrite <- (Qfloor_Z (Z.of_nat (length w'))). apply Qfloor_resp_le.
  apply Qle_shift_div_l; [exact Hi|].
  revert Hb. generalize (inject_Z (Z.of_nat (length w'))). intros n Hb. nra.
Qed.

(** *** The loop of the specification *)

(** With fuel for it, the [while] loop of section 4.1 takes whole intervals
    out of the accumulator until less than one is left. *)
Lemma spec_emit_spec (i : Q) (loc : Location Q) (fuel : nat) (acc : Q)
    (wps : list (Location Q)) :
  0 < i -> 0 <= acc -> acc < inject_Z (Z.of_nat fuel) * i ->
  exists a' k,
    spec_emit fuel i acc loc wps = Some (a', wps ++ replicate k loc)
    /\ 0 <= a' /\ a' < i /\ a' + inject_Z (Z.of_nat k) * i == acc.
Proof.
  intros Hi. revert acc wps. induction fuel as [|fuel IH]; intros acc wps H0 Hlt.
  - change (inject_Z (Z.of_nat 0)) with 0 in Hlt. lra.
  - cbn [spec_emit]. change (ge acc i) with (Qle_bool i acc).
    change (sub acc i) with (acc - i).
    rewrite inject_S in Hlt.
    destruct (Qle_bool i acc) eqn:E.
    + apply Qle_bool_iff in E.
      destruct (IH (acc - i) (wps ++ [loc])) as (a' & k & Hf & Ha0 & Hai & Hb).
      * lra.
      * revert Hlt. generalize (inject_Z (Z.of_nat fuel)). intros n Hlt. nra.
      * exists a', (S k). rewrite Hf, <- app_assoc. repeat split; try assumption.
        rewrite inject_S.
        revert Hb. generalize (inject_Z (Z.of_nat k)). intros n Hb. nra.
    + exists acc, 0%nat. rewrite app_nil_r. repeat split; try assumption.
      * apply Qnot_le_lt. intros C. apply Qle_bool_iff in C. congruence.
      * change (inject_Z (Z.of_nat 0)) with 0. ring.
Qed.

Lemma spec_sample_fold (i : Q) (fuel : nat) (ss : list (Step Q)) (acc : Q)
    (wps : list (Location Q)) :
  0 < i -> 0 <= acc -> acc < i -> nonneg_steps ss ->
  Forall (fun s => step_miles s + i <= inject_Z (Z.of_nat fuel) * i) ss ->
  exists a' ws,
    spec_sample fuel ss i acc wps = Some ws
    /\ 0 <= a' /\ a' < i
    /\ a' + inject_Z (Z.of_nat (length ws)) * i
       == acc + miles_from 0 ss + inject_Z (Z.of_nat (length wps)) * i.
Proof.
  intros Hi. revert acc wps.
  induction ss as [|s ss IH]; intros acc wps H0 Hlt Hss Hfuel.
  - exists acc, wps. repeat split; try assumption.
    change (miles_from 0 []) with 0. ring.
  - inversion Hss as [|? ? Hs Hss']; subst.
    inversion Hfuel as [|? ? Hf Hfuel']; subst.
    pose proof (step_miles_nonneg s Hs) as Hd0.
    pose proof (miles_from_shift ss (0 + step_miles s)) as Hsh.
    change (miles_from (0 + step_miles s) ss) with (miles_from 0 (s :: ss)) in Hsh.
    cbn [spec_sample]. change (add acc (step_miles s)) with (acc + step_miles s).
    destruct (spec_emit_spec i (end_location_lat s, end_location_lng s) fuel
                (acc + step_miles s) wps Hi) as (a1 & k & He & Ha0 & Hai & Hb).
    { lra. }
    { revert Hf. generalize (inject_Z (Z.of_nat fuel)), (step_miles s).
      intros n d Hf. nra. }
    rewrite He.
    destruct (IH a1 (wps ++ replicate k (end_location_lat s, end_location_lng s)))
      as (a' & ws & Hr & Hr0 & Hri & Hrb); try assumption.
    exists a', ws. repeat split; try assumption.
    rewrite Hrb, length_app, length_replicate, Nat2Z.inj_add, inject_Z_plus.
    revert Hb Hsh.
    generalize (inject_Z (Z.of_nat (length wps))), (inject_Z (Z.of_nat k)),
      (step_miles s), (miles_from 0 (s :: ss)), (miles_from 0 ss).
    intros n1 n2 d M M' Hb Hsh. nra.
Qed.

(** With its loop, the sampler of the specification satisfies the floor
    formula on every route with non-negative distances. *)
Lemma spec_sample_floor (route : Directions Q) (interval_miles : Q) (fuel : nat) :
  0 < interval_miles ->
  nonneg_steps (route_steps route) ->
  Forall (fun s => step_miles s + interval_miles
                   <= inject_Z (Z.of_nat fuel) * interval_miles) (route_steps route) ->
  exists ws,
    spec_sample fuel (route_steps route) interval_miles (of_int 0) [] = Some ws
    /\ Z.of_nat (length ws) = Qfloor (total_miles route / interval_miles).
Proof.
  intros Hi Hss Hfuel.
  destruct (spec_sample_fold interval_miles fuel (route_steps route) 0 [] Hi)
    as (a' & ws & Hr & H0 & Hlt & Hb); try assumption; try lra.
  exists ws. split; [exact Hr|].
  change (total_miles route) with (miles_from 0 (route_steps route)).
  revert Hb. generalize (miles_from 0 (route_steps route)). intros M Hb.
  change (inject_Z (Z.of_nat (@length (Location Q) []))) with 0 in Hb.
  symmetry. apply Qfloor_unique.
  - apply Qle_shift_div_l; [exact Hi|].
    revert Hb. generalize (inject_Z (Z.of_nat (length ws))). intros n Hb. nra.
  - apply Qlt_shift_div_r; [exact Hi|].
    revert Hb. generalize (inject_Z (Z.of_nat (length ws))). intros n Hb. nra.
Qed.

End Exact.

(** ** The scenarios, evaluated *)

Section Scenarios.


(** C2, at the failing input. A single step of 3 * 25 * 1609.34 metres leaves
    one waypoint, in binary64 as in exact arithmetic, where the loop of the
    specification emits three: line 128 tests the accumulator once per step. *)
Theorem three_intervals_one_waypoint (self : Route float) (self' : Route Q) :
  mul (mul (of_int 3) (of_int 25)) miles_const = 120700.5%float
  /\ waypoints_after self three_intervals_f (of_int 25) = [(1%float, 1%float)]
  /\ waypoints_after self' three_intervals_q (of_int 25) = [(1%Q, 1%Q)]
  /\ spec_sample 4 (route_steps three_intervals_f) (of_int 25) (of_int 0) []
     = Some [(1%float, 1%float); (1%float, 1%float); (1%float, 1%float)]
  /\ spec_sample 4 (route_steps three_intervals_q) (of_int 25) (of_int 0) []
     = Some [(1%Q, 1%Q); (1%Q, 1%Q); (1%Q, 1%Q)].
Proof.
  rewrite !calculate_waypoints_steps.
  repeat split; vm_compute; reflexivity.
Qed.

(** C1, at the failing input. A route of one 100-mile step sampled every 25
    miles has floor(100 / 25) = 4, and the call leaves one waypoint. *)
Theorem hundred_miles_one_waypoint (self : Route Q) (self' : Route float) :
  Qfloor (total_miles hundred_miles_q / of_int 25) = 4%Z
  /\ length (waypoints_after self hundred_miles_q (of_int 25)) = 1%nat
  /\ length (waypoints_after self' hundred_miles_f (of_int 25)) = 1%nat.
Proof.
  rewrite !calculate_waypoints_steps.
  repeat split; vm_compute; reflexivity.
Qed.




Lemma waypoint_marks_lower_bound_witness :
  waypoint_marks two_steps_q (of_int 25) !! 1%nat
  = Some (1448406000000 # 25899752356, (2, 2))%Q
  /\ (inject_Z 2 * of_int 25 <= 1448406000000 # 25899752356)%Q.
Proof.
  split; [reflexivity|].
  exact (proj2 (waypoint_marks_lower_bound (Route_init "a" "b") two_steps_q (of_int 25))
           1%nat _ _ eq_refl).
Defined.

Lemma calculate_waypoints_empty_witness :
  nonneg_steps (route_steps short_route_q)
  /\ (total_miles short_route_q < of_int 25)%Q
  /\ waypoints_after (Route_init "a" "b") short_route_q (of_int 25) = [].
Proof.
  assert (Hnn : nonneg_steps (route_steps short_route_q)).
  { repeat constructor; apply Qle_bool_iff; reflexivity. }
  assert (Hlt : (total_miles short_route_q < of_int 25)%Q) by reflexivity.
  split; [exact Hnn | split; [exact Hlt|]].
  exact (proj2 (calculate_waypoints_empty (Route_init "a" "b") short_route_q (of_int 25))
           Hnn Hlt).
Defined.

(** The two short steps of [short_route_q] leave no waypoint in binary64
    either, and the three steps of [three_steps_f] leave one each. *)
Example short_route_binary64 (self : Route float) :
  waypoints_after self
    (one_leg [step_at 10000%float 1%float 1%float; step_at 10000%float 2%float 2%float])
    (of_int 25) = []
  /\ waypoints_after self three_steps_f (of_int 25)
     = [(1%float, 1%float); (2%float, 2%float); (3%float, 3%float)].
Proof. rewrite !calculate_waypoints_steps. split; vm_compute; reflexivity. Qed.

End Scenarios.

(** ** Searching and printing *)

Section Run.
Context {T : Type} `{Number T} (env : Env T).

Ltac io_unfold :=
  unfold mbind, IO_bind, io_bind, io_ret, get_nearby, get_directions, print, raise,
    sent, log.

Lemma searched_app (e1 e2 : list (event T)) :
  searched (e1 ++ e2) = searched e1 ++ searched e2.
Proof. apply flat_map_app. Qed.

Lemma printed_app (e1 e2 : list (event T)) :
  printed (e1 ++ e2) = printed e1 ++ printed e2.
Proof. apply flat_map_app. Qed.

Lemma found_app (self : POIloc T) (n : nat) (ws1 ws2 : list (Location T)) :
  found env self n (ws1 ++ ws2)
  = found env self n ws1 ++ found env self (n + length ws1) ws2.
Proof.
  revert n. induction ws1 as [|wp ws1 IH]; intros n; simpl.
  - now rewrite Nat.add_0_r.
  - rewrite IH, <- app_assoc. now replace (S n + length ws1)%nat with (n + S (length ws1))%nat by lia.
Qed.

Lemma searched_search_events (self : POIloc T) (n : nat) (ws : list (Location T)) :
  searched (search_events env self n ws) = ws.
Proof.
  revert n. induction ws as [|wp ws IH]; intros n; [reflexivity|].
  cbn [search_events]. change (?e :: ?l) with ([e] ++ l).
  rewrite !searched_app, IH.
  destruct (bool_decide _); reflexivity.
Qed.

(** One search: the request, the error line on a bad status, and the
    contribution of the response. *)
Lemma search_nearby_spec (self : POIloc T) (wp : Location T) (w : World T) :
  search_nearby env self wp w
  = ({| stdin := stdin w; requests_sent := S (requests_sent w);
        events := events w ++ search_events env self (requests_sent w) [wp] |},
     Returned (contribution (nearby_response env self (requests_sent w) wp))).
Proof.
  unfold search_nearby, contribution. cbn [search_events]. io_unfold.
  fold (nearby_response env self (requests_sent w) wp).
  destruct (bool_decide _); cbn -[pretty String.append].
  - reflexivity.
  - now rewrite <- app_assoc.
Qed.

Lemma search_events_cons (self : POIloc T) (n : nat) (wp : Location T)
    (ws : list (Location T)) :
  search_events env self n (wp :: ws)
  = search_events env self n [wp] ++ search_events env self (S n) ws.
Proof. cbn [search_events]. now rewrite app_nil_r, <- app_comm_cons. Qed.

(** The loop of [search_waypoints], from any accumulated list and world. *)
Lemma search_loop_spec (self : POIloc T) (ws : list (Location T)) (acc : list POI)
    (w : World T) :
  for_each ws
    (fun poi_results waypoint =>
       results ← search_nearby env self waypoint;
       io_ret (poi_results ++ results)) acc w
  = ({| stdin := stdin w; requests_sent := requests_sent w + length ws;
        events := events w ++ search_events env self (requests_sent w) ws |},
     Returned (acc ++ found env self (requests_sent w) ws)).
Proof.
  revert acc w. induction ws as [|wp ws IH]; intros acc w.
  - destruct w. cbn. now rewrite Nat.add_0_r, !app_nil_r.
  - cbn [for_each]. unfold io_bind at 1. unfold mbind, IO_bind, io_bind at 1.
    rewrite search_nearby_spec. unfold io_ret at 1. rewrite IH.
    cbn [stdin requests_sent events found length].
    rewrite (search_events_cons self (requests_sent w) wp ws), !app_assoc.
    now replace (S (requests_sent w) + length ws)%nat
      with (requests_sent w + S (length ws))%nat by lia.
Qed.

Lemma search_waypoints_spec (self : POIloc T) (w : World T) :
  search_waypoints env self w
  = ({| stdin := stdin w;
        requests_sent := requests_sent w + length (poi_waypoints self);
        events := events w
                  ++ search_events env self (requests_sent w) (poi_waypoints self) |},
     Returned (found env self (requests_sent w) (poi_waypoints self))).
Proof. unfold search_waypoints. now rewrite search_loop_spec. Qed.

(** C7. When the search around one waypoint comes back with a status other
    than 200, that waypoint contributes nothing, every waypoint is still
    searched, in order, and the run of [search_waypoints] completes with the
    contributions of the other waypoints concatenated in waypoint order. *)
Theorem failed_search_contributes_nothing
    (self : POIloc T) (w : World T) (ws1 ws2 : list (Location T)) (wp : Location T) :
  poi_waypoints self = ws1 ++ wp :: ws2 ->
  status_code (nearby_response env self (requests_sent w + length ws1) wp) <> 200%Z ->
  contribution (nearby_response env self (requests_sent w + length ws1) wp) = []
  /\ exists w',
       search_waypoints env self w
       = (w', Returned (found env self (requests_sent w) ws1
                        ++ found env self (requests_sent w + length ws1 + 1) ws2))
       /\ searched (events w') = searched (events w) ++ ws1 ++ wp :: ws2.
Proof.
  intros Hws Hbad.
  assert (Hc : contribution (nearby_response env self (requests_sent w + length ws1) wp) = []).
  { unfold contribution. now rewrite bool_decide_eq_false_2. }
  split; [exact Hc|].
  eexists. split.
  - rewrite search_waypoints_spec, Hws, found_app. cbn [found].
    rewrite Hc. cbn [app].
    now replace (S (requests_sent w + length ws1)) with (requests_sent w + length ws1 + 1)%nat by lia.
  - cbn [events]. now rewrite searched_app, searched_search_events.
Qed.

Lemma fetch_route_spec (self : Route T) (api_key : string) (w : World T) :
  fetch_route env self api_key w
  = let r := directions_api env (requests_sent w) (startloc self) (endloc self) api_key in
    let w1 := sent (EvGetDirections (startloc self) (endloc self) api_key) w in
    if bool_decide (status_code r = 200%Z)
    then (w1, Returned (Some (json r)))
    else (log (EvPrint ("Error fetching route: " +:+ pretty (status_code r))) w1,
          Returned None).
Proof.
  unfold fetch_route. io_unfold. cbv zeta.
  destruct (bool_decide _); reflexivity.
Qed.

Lemma print_names_spec (pois : list POI) (w : World T) :
  for_each pois (fun _ poi => print (poi_name poi)) tt w
  = ({| stdin := stdin w; requests_sent := requests_sent w;
        events := events w ++ name_lines pois |}, Returned tt).
Proof.
  revert w. induction pois as [|poi pois IH]; intros w.
  - destruct w. cbn. now rewrite app_nil_r.
  - cbn [for_each]. unfold io_bind at 1. unfold print at 1. rewrite IH.
    unfold log. cbn [stdin requests_sent events name_lines map].
    now rewrite <- app_assoc.
Qed.

(** C6. When the directions request comes back with a status other than
    200, [main] prints the two failure lines and returns at once: the
    directions request is the only request of the run, so nothing is
    searched, and whatever the body of the response holds is never
    sampled. *)
Theorem route_fetch_failure_aborts
    (api_key : string) (arg_start arg_end arg_keyword arg_distance : option string)
    (w0 w : World T) (inputs : UserInputs T) :
  resolve_inputs env arg_start arg_end arg_keyword arg_distance w0 = (w, Returned inputs) ->
  status_code (route_response env api_key inputs (requests_sent w)) <> 200%Z ->
  exists w',
    main env api_key arg_start arg_end arg_keyword arg_distance w0 = (w', Returned tt)
    /\ events w'
       = events w
         ++ [EvGetDirections (ui_startloc inputs) (ui_endloc inputs) api_key;
             EvPrint ("Error fetching route: "
                      +:+ pretty (status_code
                                    (route_response env api_key inputs (requests_sent w))));
             EvPrint "Failed to fetch route data."]
    /\ requests_sent w' = S (requests_sent w)
    /\ searched (events w') = searched (events w).
Proof.
  intros Hin Hbad. eexists. split; [|split; [|split]].
  - unfold main, mbind, IO_bind, io_bind at 1. rewrite Hin.
    unfold run, mbind, IO_bind, io_bind at 1. rewrite fetch_route_spec. cbv zeta.
    cbn [Route_init startloc endloc].
    fold (route_response env api_key inputs (requests_sent w)).
    rewrite bool_decide_eq_false_2 by exact Hbad. reflexivity.
  - cbn -[pretty String.append]. now rewrite <- !app_assoc.
  - reflexivity.
  - unfold log, sent. cbn [events]. rewrite !searched_app.
    cbn [searched flat_map app]. now rewrite !app_nil_r.
Qed.

Lemma printed_name_lines (pois : list POI) :
  printed (@name_lines T pois) = map poi_name pois.
Proof.
  induction pois as [|poi pois IH]; [reflexivity|].
  cbn [name_lines map]. change (?e :: ?l) with ([e] ++ l).
  rewrite printed_app. fold (@name_lines T pois). now rewrite IH.
Qed.

(** C9. On a run that fetched the route and searched the waypoints, the
    remaining output is one line per record of the results, in order: its
    [name] when it has one, and the placeholder otherwise. *)
Theorem one_line_per_poi
    (api_key : string) (arg_start arg_end arg_keyword arg_distance : option string)
    (w0 w wS : World T) (inputs : UserInputs T) (route' : Route T) (pois : list POI) :
  resolve_inputs env arg_start arg_end arg_keyword arg_distance w0 = (w, Returned inputs) ->
  status_code (route_response env api_key inputs (requests_sent w)) = 200%Z ->
  calculate_waypoints (Route_init (ui_startloc inputs) (ui_endloc inputs))
    (json (route_response env api_key inputs (requests_sent w))) (of_int 25)
  = (route', Returned tt) ->
  search_waypoints env
    {| poi_waypoints := waypoints route'; poi_api_key := api_key;
       poi_keyword := ui_keyword inputs;
       poi_distoffpath := mul (ui_distoffpath inputs) miles_const |}
    (sent (EvGetDirections (ui_startloc inputs) (ui_endloc inputs) api_key) w)
  = (wS, Returned pois) ->
  exists w',
    main env api_key arg_start arg_end arg_keyword arg_distance w0 = (w', Returned tt)
    /\ events w' = events wS ++ name_lines pois
    /\ printed (events w') = printed (events wS) ++ map poi_name pois
    /\ forall poi : POI,
         poi_name poi = match poi !! "name" with
                        | Some name => name
                        | None => "No name available"
                        end.
Proof.
  intros Hin Hok Hcw Hsw. eexists. split; [|split; [|split]].
  - unfold main, mbind, IO_bind, io_bind at 1. rewrite Hin.
    unfold run, mbind, IO_bind, io_bind at 1. rewrite fetch_route_spec. cbv zeta.
    cbn [Route_init startloc endloc].
    fold (route_response env api_key inputs (requests_sent w)).
    rewrite bool_decide_eq_true_2 by exact Hok.
    fold (@Route_init T (ui_startloc inputs) (ui_endloc inputs)). rewrite Hcw.
    unfold io_bind. rewrite Hsw. rewrite print_names_spec. reflexivity.
  - reflexivity.
  - cbn [events]. now rewrite printed_app, printed_name_lines.
  - intros poi. unfold poi_name. now destruct (poi !! "name").
Qed.

End Run.

(** ** A run with a failed search, and a run with a failed fetch *)

Section Runs.

Lemma failed_search_contributes_nothing_witness :
  exists w',
    search_waypoints demo_env demo_lookup routed_world
    = (w', Returned [ {[ "name" := "Cafe 1" ]}; ∅; {[ "name" := "Cafe 3" ]} ])
    /\ searched (events w')
       = [(1%float, 1%float); (2%float, 2%float); (3%float, 3%float)].
Proof.
  destruct (failed_search_contributes_nothing demo_env demo_lookup routed_world
              [(1%float, 1%float)] [(3%float, 3%float)] (2%float, 2%float) eq_refl)
    as (_ & w' & Hs & He).
  - vm_compute. discriminate.
  - exists w'. split; [exact Hs | exact He].
Defined.

Lemma route_fetch_failure_aborts_witness :
  exists w',
    main demo_env "key" (Some "nowhere") (Some "b") (Some "cafe") (Some "5") fresh_world
    = (w', Returned tt)
    /\ events w'
       = [EvGetDirections "nowhere" "b" "key";
          EvPrint "Error fetching route: 404";
          EvPrint "Failed to fetch route data."]
    /\ requests_sent w' = 1%nat
    /\ searched (events w') = [].
Proof.
  apply (route_fetch_failure_aborts demo_env "key"
           (Some "nowhere") (Some "b") (Some "cafe") (Some "5") fresh_world fresh_world
           {| ui_startloc := "nowhere"; ui_endloc := "b"; ui_keyword := "cafe";
              ui_distoffpath := 5%float |}).
  - reflexivity.
  - vm_compute. discriminate.
Defined.

Lemma one_line_per_poi_witness :
  exists w',
    main demo_env "key" (Some "a") (Some "b") (Some "cafe") (Some "5") fresh_world
    = (w', Returned tt)
    /\ printed (events w')
       = ["Error fetching POIs: 500"; "Cafe 1"; "No name available"; "Cafe 3"].
Proof.
  destruct (one_line_per_poi demo_env "key"
              (Some "a") (Some "b") (Some "cafe") (Some "5") fresh_world fresh_world
              (fst (search_waypoints demo_env demo_lookup routed_world))
              {| ui_startloc := "a"; ui_endloc := "b"; ui_keyword := "cafe";
                 ui_distoffpath := 5%float |}
              {| startloc := "a"; endloc := "b";
                 waypoints := [(1%float, 1%float); (2%float, 2%float); (3%float, 3%float)] |}
              [ {[ "name" := "Cafe 1" ]}; ∅; {[ "name" := "Cafe 3" ]} ])
    as (w' & Hm & _ & Hp & _).
  - reflexivity.
  - reflexivity.
  - reflexivity.
  - reflexivity.
  - exists w'. split; [exact Hm | rewrite Hp; reflexivity].
Defined.

(** The same run with the four inputs read from the prompts. *)
Example main_prompts :
  let w := {| stdin := ["a"; "b"; "cafe"; "5"]; requests_sent := 0; events := [] |} in
  snd (main demo_env "key" None None None None w) = Returned tt
  /\ printed (events (fst (main demo_env "key" None None None None w)))
     = ["Error fetching POIs: 500"; "Cafe 1"; "No name available"; "Cafe 3"]
  /\ stdin (fst (main demo_env "key" None None None None w)) = [].
Proof. repeat split; reflexivity. Qed.

(** A partial set of arguments is not merged with the prompts: all four
    inputs are read, and a distance that is no number ends the run. *)
Example main_partial_arguments :
  let w := {| stdin := ["a"; "b"; "cafe"; "far"]; requests_sent := 0; events := [] |} in
  snd (main demo_env "key" (Some "x") None (Some "y") (Some "5") w) = Raised ValueError
  /\ searched (events (fst (main demo_env "key" (Some "x") None (Some "y") (Some "5") w)))
     = [].
Proof. split; reflexivity. Qed.

(** A successful response without routes ends the run in [IndexError]. *)
Example main_no_route :
  main demo_env "key" (Some "island") (Some "b") (Some "cafe") (Some "5") fresh_world
  = (sent (EvGetDirections "island" "b" "key") fresh_world, Raised IndexError).
Proof. reflexivity. Qed.

End Runs.

(** * Further properties *)

(** ** The sampling loop and the shape of the route *)

Section Shape.
Context {T : Type} `{Number T}.

Lemma steps_fold_extends (i : T) (ss : list (Step T)) (st : T * list (Location T)) :
  exists extra,
    snd (fold_left (step_body i) ss st) = snd st ++ extra
    /\ extra `sublist_of` map step_end ss.
Proof.
  revert st. induction ss as [|s ss IH]; intros st.
  - exists []. split; [now rewrite app_nil_r | constructor].
  - cbn [fold_left map].
    destruct (IH (step_body i st s)) as (extra & He & Hsub).
    destruct (step_body_grows i st s) as [E|E]; rewrite E in He.
    + exists extra. split; [exact He | now apply sublist_cons].
    + exists (step_end s :: extra). split.
      * now rewrite He, <- app_assoc.
      * now apply sublist_skip.
Qed.

(** X1. The waypoints are end locations of steps of the route, in route
    order, each step used at most once: the waypoint list is a sublist of the
    list of the steps' end locations. *)
Theorem waypoints_sublist_of_step_ends
    (self : Route T) (route : Directions T) (interval_miles : T) :
  waypoints_after self route interval_miles
  `sublist_of` map step_end (route_steps route).
Proof.
  rewrite calculate_waypoints_steps.
  destruct (steps_fold_extends interval_miles (route_steps route) (of_int 0, []))
    as (extra & He & Hsub).
  now rewrite He.
Qed.

(** X2. Sampling is incremental: when a route continues another one (its
    steps are the other's steps followed by more), its waypoints are the
    other's waypoints followed by more. *)
Theorem waypoints_prefix_of_longer_route
    (self self' : Route T) (route route' : Directions T) (more : list (Step T))
    (interval_miles : T) :
  route_steps route' = route_steps route ++ more ->
  waypoints_after self route interval_miles
  `prefix_of` waypoints_after self' route' interval_miles.
Proof.
  intros E. rewrite !calculate_waypoints_steps, E, fold_left_app.
  destruct (steps_fold_extends interval_miles more
              (fold_left (step_body interval_miles) (route_steps route) (of_int 0, [])))
    as (extra & He & _).
  exists extra. exact He.
Qed.

(** X3. Only the first route is read, and the leg boundaries do not matter:
    the accumulator runs on from one leg into the next, so the waypoints
    are those of the same steps put in a single leg. *)
Theorem waypoints_ignore_legs_and_other_routes
    (self self' : Route T) (ls : list (Leg T)) (others : list (RouteEntry T))
    (interval_miles : T) :
  waypoints_after self {| routes := {| legs := ls |} :: others |} interval_miles
  = waypoints_after self' (one_leg (flat_map steps ls)) interval_miles.
Proof.
  rewrite !calculate_waypoints_steps. unfold route_steps, one_leg.
  cbn [routes legs flat_map steps]. now rewrite app_nil_r.
Qed.

End Shape.

Section ShapeWitnesses.

Lemma waypoints_prefix_of_longer_route_witness :
  waypoints_after (Route_init "a" "b") two_steps_q (of_int 25)
  `prefix_of` waypoints_after (Route_init "c" "d")
                (one_leg (route_steps two_steps_q ++ route_steps short_route_q))
                (of_int 25).
Proof.
  exact (waypoints_prefix_of_longer_route (Route_init "a" "b") (Route_init "c" "d")
           two_steps_q (one_leg (route_steps two_steps_q ++ route_steps short_route_q))
           (route_steps short_route_q) (of_int 25) eq_refl).
Defined.

End ShapeWitnesses.

(** ** The sampling loop at and below a zero interval *)

Section NonPositive.
Local Open Scope Q_scope.

Lemma nonpositive_fold (i : Q) (ss : list (Step Q)) (a : Q) (w : list (Location Q)) :
  i <= 0 -> 0 <= a -> nonneg_steps ss ->
  snd (fold_left (step_body i) ss (a, w)) = w ++ map step_end ss.
Proof.
  intros Hi. revert a w. induction ss as [|s ss IH]; intros a w Ha Hss.
  - cbn. now rewrite app_nil_r.
  - inversion Hss as [|? ? Hs Hss']; subst.
    pose proof (step_miles_nonneg s Hs) as Hd.
    cbn [fold_left map]. rewrite step_body_exact.
    assert (E : Qle_bool i (a + step_miles s) = true).
    { apply Qle_bool_iff. revert Hd. generalize (step_miles s). intros d Hd. lra. }
    rewrite E, IH.
    + now rewrite <- app_assoc.
    + revert Hd. generalize (step_miles s). intros d Hd. lra.
    + assumption.
Qed.

(** In exact arithmetic, with an interval that is zero or negative and
    non-negative distances, every step leaves a waypoint. *)
Theorem nonpositive_interval_every_step
    (self : Route Q) (route : Directions Q) (interval_miles : Q) :
  interval_miles <= 0 ->
  nonneg_steps (route_steps route) ->
  waypoints_after self route interval_miles = map step_end (route_steps route).
Proof.
  intros Hi Hss. rewrite calculate_waypoints_steps.
  change (of_int 0) with 0. rewrite nonpositive_fold; [reflexivity | | |];
    try assumption. apply Qle_refl.
Qed.

Lemma two_steps_nonneg : nonneg_steps (route_steps two_steps_q).
Proof. repeat constructor; apply Qle_bool_iff; reflexivity. Defined.

Lemma nonpositive_interval_every_step_witness :
  waypoints_after (Route_init "a" "b") two_steps_q (of_int (-25))
  = [(1, 1); (2, 2)].
Proof.
  apply (nonpositive_interval_every_step (Route_init "a" "b") two_steps_q (of_int (-25))).
  - apply Qle_bool_iff. reflexivity.
  - exact two_steps_nonneg.
Defined.

Lemma waypoints_at_most_floor_witness :
  (Z.of_nat (length (waypoints_after (Route_init "a" "b") two_steps_q (of_int 25)))
   <= Qfloor (total_miles two_steps_q / of_int 25))%Z.
Proof.
  apply (waypoints_at_most_floor (Route_init "a" "b") two_steps_q (of_int 25)).
  - reflexivity.
  - exact two_steps_nonneg.
Defined.

Lemma short_steps_floor_witness :
  Z.of_nat (length (waypoints_after (Route_init "a" "b") short_route_q (of_int 10)))
  = Qfloor (total_miles short_route_q / of_int 10)
  /\ Qfloor (total_miles short_route_q / of_int 10) = 1%Z.
Proof.
  split; [|reflexivity].
  apply (short_steps_floor (Route_init "a" "b") short_route_q (of_int 10)).
  - reflexivity.
  - repeat constructor; apply Qle_bool_iff; reflexivity.
Defined.

End NonPositive.

(** ** Collecting the inputs *)

Section Inputs.
Context {T : Type} `{Number T} (env : Env T).

Lemma prompted_app (e1 e2 : list (event T)) :
  prompted (e1 ++ e2) = prompted e1 ++ prompted e2.
Proof. apply flat_map_app. Qed.

(** [UserInputs.__init__] on every standard input: with four lines or more
    it shows the four prompts and takes the first four lines; with fewer it
    stops at the prompt for which no line is left. *)
Lemma UserInputs_init_cases (w : World T) :
  UserInputs_init env w
  = match stdin w with
    | l1 :: l2 :: l3 :: l4 :: rest =>
        ({| stdin := rest; requests_sent := requests_sent w;
            events := events w ++ map EvInput prompts |},
         match float_of_str env l4 with
         | Some d => Returned {| ui_startloc := l1; ui_endloc := l2; ui_keyword := l3;
                                 ui_distoffpath := d |}
         | None => Raised ValueError
         end)
    | ls =>
        ({| stdin := []; requests_sent := requests_sent w;
            events := events w ++ map EvInput (take (S (length ls)) prompts) |},
         Raised EOFError)
    end.
Proof.
  destruct w as [si n evs].
  destruct si as [|l1 [|l2 [|l3 [|l4 rest]]]];
    unfold UserInputs_init, mbind, IO_bind, io_bind, input, to_float, log;
    cbn [stdin requests_sent events length take map prompts];
    rewrite <- ?app_assoc; try reflexivity.
  unfold io_ret, raise. destruct (float_of_str env l4); reflexivity.
Qed.

(** X7. With at least four lines on standard input, the last of which
    [float()] accepts, [UserInputs()] shows its four prompts in order, takes
    exactly the first four lines as start, end, keyword and distance, and
    leaves the rest unread. *)
Theorem UserInputs_init_reads_four_lines
    (w : World T) (l1 l2 l3 l4 : string) (rest : list string) (d : T) :
  stdin w = l1 :: l2 :: l3 :: l4 :: rest ->
  float_of_str env l4 = Some d ->
  UserInputs_init env w
  = ({| stdin := rest; requests_sent := requests_sent w;
        events := events w ++ map EvInput prompts |},
     Returned {| ui_startloc := l1; ui_endloc := l2; ui_keyword := l3;
                 ui_distoffpath := d |}).
Proof. intros Hin Hd. now rewrite UserInputs_init_cases, Hin, Hd. Qed.

(** X8. With fewer than four lines on standard input, [UserInputs()] ends in
    [EOFError] at the first prompt that finds no line: the lines before it
    were read, that prompt was shown, and nothing was sent or printed. *)
Theorem UserInputs_init_end_of_input (w : World T) :
  (length (stdin w) < 4)%nat ->
  exists w',
    UserInputs_init env w = (w', Raised EOFError)
    /\ stdin w' = []
    /\ prompted (events w') = prompted (events w) ++ take (S (length (stdin w))) prompts
    /\ requests_sent w' = requests_sent w
    /\ printed (events w') = printed (events w).
Proof.
  intros Hlen. rewrite UserInputs_init_cases.
  destruct (stdin w) as [|l1 [|l2 [|l3 [|l4 rest]]]]; cbn [length] in Hlen; try lia;
    eexists; (split; [reflexivity|]); cbn [stdin requests_sent events];
    rewrite prompted_app, printed_app; cbn; rewrite ?app_nil_r; auto.
Qed.

(** X9. A partial set of arguments is not merged with the prompts: when one
    of the four is missing or empty, [main] behaves as if none had been
    given. *)
Theorem main_partial_arguments_as_none
    (api_key : string) (arg_start arg_end arg_keyword arg_distance : option string) :
  truthy arg_start = false \/ truthy arg_end = false
  \/ truthy arg_keyword = false \/ truthy arg_distance = false ->
  main env api_key arg_start arg_end arg_keyword arg_distance
  = main env api_key None None None None.
Proof.
  intros Hmiss. unfold main, resolve_inputs.
  assert (E : forallb truthy [arg_start; arg_end; arg_keyword; arg_distance] = false).
  { cbn [forallb]. destruct Hmiss as [E|[E|[E|E]]]; rewrite E;
      rewrite ?andb_false_r; reflexivity. }
  now rewrite E.
Qed.

(** X10. Collecting the inputs never touches the network and prints no
    line, whatever the arguments and the standard input: it only prompts. *)
Theorem resolve_inputs_offline
    (arg_start arg_end arg_keyword arg_distance : option string) (w : World T) :
  requests_sent (fst (resolve_inputs env arg_start arg_end arg_keyword arg_distance w))
  = requests_sent w
  /\ searched (events (fst (resolve_inputs env arg_start arg_end arg_keyword arg_distance w)))
     = searched (events w)
  /\ printed (events (fst (resolve_inputs env arg_start arg_end arg_keyword arg_distance w)))
     = printed (events w).
Proof.
  unfold resolve_inputs.
  destruct (negb (forallb truthy [arg_start; arg_end; arg_keyword; arg_distance])).
  - rewrite UserInputs_init_cases.
    destruct (stdin w) as [|l1 [|l2 [|l3 [|l4 rest]]]];
      cbn [fst stdin requests_sent events]; rewrite searched_app, printed_app;
      cbn; rewrite ?app_nil_r; auto.
  - unfold mbind, IO_bind, io_bind, to_float, io_ret, raise.
    destruct (float_of_str env (default "" arg_distance)); cbn [fst]; auto.
Qed.

(** X11. With all four arguments given and not empty, [main] shows no prompt
    and reads no line: it goes on to the route with the arguments as they
    are, or, when [float()] rejects the distance, ends in [ValueError] with
    nothing prompted, sent or printed. *)
Theorem main_all_arguments
    (api_key start_ end_ keyword distance : string) (w : World T) :
  start_ <> "" -> end_ <> "" -> keyword <> "" -> distance <> "" ->
  main env api_key (Some start_) (Some end_) (Some keyword) (Some distance) w
  = match float_of_str env distance with
    | Some d => run env api_key {| ui_startloc := start_; ui_endloc := end_;
                                   ui_keyword := keyword; ui_distoffpath := d |} w
    | None => (w, Raised ValueError)
    end.
Proof.
  intros H1 H2 H3 H4. unfold main, resolve_inputs, truthy. cbn [forallb].
  rewrite !bool_decide_eq_true_2 by assumption. cbn [andb negb from_option id].
  unfold mbind, IO_bind, io_bind, to_float, io_ret, raise.
  destruct (float_of_str env distance); reflexivity.
Qed.

End Inputs.

(** ** Requests, searches and the run as a whole *)

Section Requests.
Context {T : Type} `{Number T} (env : Env T).

(** X12. [fetch_route] never raises and sends exactly one request, built
    from the object's two locations and the key.  It returns the body
    exactly when the status is 200, printing nothing; on any other status it
    returns [None] and prints the one line that names the status. *)
Theorem fetch_route_one_request (self : Route T) (api_key : string) (w : World T) :
  let r := directions_api env (requests_sent w) (startloc self) (endloc self) api_key in
  exists w',
    fetch_route env self api_key w
    = (w', Returned (if bool_decide (status_code r = 200%Z) then Some (json r) else None))
    /\ requests_sent w' = S (requests_sent w)
    /\ stdin w' = stdin w
    /\ searched (events w') = searched (events w)
    /\ printed (events w')
       = printed (events w)
         ++ (if bool_decide (status_code r = 200%Z) then []
             else ["Error fetching route: " +:+ pretty (status_code r)]).
Proof.
  intros r. rewrite fetch_route_spec. fold r. cbv zeta.
  destruct (bool_decide (status_code r = 200%Z)); eexists;
    (split; [reflexivity|]); unfold log, sent; cbn [stdin requests_sent events];
    rewrite !searched_app, !printed_app; cbn [searched printed flat_map app];
    rewrite ?app_nil_r; auto.
Qed.

Lemma found_with_waypoints (self : POIloc T) (ws0 : list (Location T)) (n : nat)
    (ws : list (Location T)) :
  found env (with_waypoints self ws0) n ws = found env self n ws.
Proof. revert n. induction ws as [|wp ws IH]; intros n; cbn [found]; [|rewrite IH]; reflexivity. Qed.

Lemma search_events_with_waypoints (self : POIloc T) (ws0 : list (Location T)) (n : nat)
    (ws : list (Location T)) :
  search_events env (with_waypoints self ws0) n ws = search_events env self n ws.
Proof.
  revert n. induction ws as [|wp ws IH]; intros n; cbn [search_events];
    [|rewrite IH]; reflexivity.
Qed.

Lemma search_events_app (self : POIloc T) (n : nat) (ws1 ws2 : list (Location T)) :
  search_events env self n (ws1 ++ ws2)
  = search_events env self n ws1 ++ search_events env self (n + length ws1) ws2.
Proof.
  revert n. induction ws1 as [|wp ws1 IH]; intros n.
  - cbn. now rewrite Nat.add_0_r.
  - rewrite <- app_comm_cons, (search_events_cons env self n wp (ws1 ++ ws2)),
      (search_events_cons env self n wp ws1), IH, <- app_assoc.
    now replace (S n + length ws1)%nat with (n + length (wp :: ws1))%nat by (cbn; lia).
Qed.

(** X13. [search_waypoints] never raises and reads no input: it sends
    exactly one request per waypoint, in waypoint order, whatever the
    statuses that come back. *)
Theorem search_waypoints_one_request_each (self : POIloc T) (w : World T) :
  exists w' pois,
    search_waypoints env self w = (w', Returned pois)
    /\ requests_sent w' = (requests_sent w + length (poi_waypoints self))%nat
    /\ searched (events w') = searched (events w) ++ poi_waypoints self
    /\ stdin w' = stdin w.
Proof.
  rewrite search_waypoints_spec. do 2 eexists. split; [reflexivity|].
  cbn [stdin requests_sent events]. rewrite searched_app, searched_search_events. auto.
Qed.

(** X14. Results are never merged across waypoints: when the provider
    answers every search with status 200 and the same list, the output is
    that list once per waypoint. *)
Theorem search_waypoints_keeps_duplicates
    (self : POIloc T) (w : World T) (pois : list POI) :
  (forall n location,
     nearby_response env self n location
     = {| status_code := 200; json := {| results := pois |} |}) ->
  snd (search_waypoints env self w)
  = Returned (concat (replicate (length (poi_waypoints self)) pois)).
Proof.
  intros Hsame. rewrite search_waypoints_spec. cbn [snd]. f_equal.
  generalize (requests_sent w).
  induction (poi_waypoints self) as [|wp ws IH]; intros n; [reflexivity|].
  cbn [found length replicate concat]. rewrite IH. unfold contribution.
  now rewrite Hsame.
Qed.


(** X16. Searching a list of waypoints is searching its first part and
    then, from the world this leaves, its second part: the results are the
    two result lists appended. *)
Theorem search_waypoints_app
    (self : POIloc T) (ws1 ws2 : list (Location T)) (w : World T) :
  exists w1 pois1 w2 pois2,
    search_waypoints env (with_waypoints self ws1) w = (w1, Returned pois1)
    /\ search_waypoints env (with_waypoints self ws2) w1 = (w2, Returned pois2)
    /\ search_waypoints env (with_waypoints self (ws1 ++ ws2)) w
       = (w2, Returned (pois1 ++ pois2)).
Proof.
  do 4 eexists. split; [|split].
  - rewrite search_waypoints_spec. reflexivity.
  - rewrite search_waypoints_spec. reflexivity.
  - rewrite search_waypoints_spec.
    cbn [with_waypoints poi_waypoints stdin requests_sent events].
    rewrite !found_with_waypoints, !search_events_with_waypoints.
    rewrite found_app, search_events_app, length_app, !app_assoc, Nat.add_assoc.
    reflexivity.
Qed.

End Requests.

(** ** The run after the inputs *)

Section Whole.
Context {T : Type} `{Number T} (env : Env T).

(** Lines 222-239 on every response of the directions provider. *)
Lemma run_cases (api_key : string) (inputs : UserInputs T) (w : World T) :
  run env api_key inputs w
  = let r := route_response env api_key inputs (requests_sent w) in
    let w1 := sent (EvGetDirections (ui_startloc inputs) (ui_endloc inputs) api_key) w in
    if bool_decide (status_code r = 200%Z)
    then match routes (json r) with
         | [] => (w1, Raised IndexError)
         | _ :: _ =>
             let ws := waypoints_after
                         (Route_init (ui_startloc inputs) (ui_endloc inputs))
                         (json r) (of_int 25) in
             let self := lookup_of api_key inputs ws in
             ({| stdin := stdin w;
                 requests_sent := S (requests_sent w) + length ws;
                 events := (events w1 ++ search_events env self (S (requests_sent w)) ws)
                           ++ name_lines (found env self (S (requests_sent w)) ws) |},
              Returned tt)
         end
    else (log (EvPrint "Failed to fetch route data.")
            (log (EvPrint ("Error fetching route: " +:+ pretty (status_code r))) w1),
          Returned tt).
Proof.
  unfold run, mbind, IO_bind, io_bind at 1. rewrite fetch_route_spec. cbv zeta.
  cbn [Route_init startloc endloc].
  fold (route_response env api_key inputs (requests_sent w)).
  destruct (bool_decide _); [|reflexivity].
  unfold waypoints_after, calculate_waypoints.
  destruct (routes (json (route_response env api_key inputs (requests_sent w))))
    as [|r0 rs]; [reflexivity|].
  cbn [fst snd set_waypoints waypoints]. unfold io_bind.
  fold (lookup_of api_key inputs
          (snd (fold_left (leg_body (of_int 25)) (legs r0) (of_int 0, [])))).
  rewrite search_waypoints_spec, print_names_spec. reflexivity.
Qed.


(** X18. A response with status 200 and an empty [routes] list (the provider
    found no route) is not reported as a failure: the run ends in
    [IndexError] right after the directions request, with nothing printed
    and nothing searched. *)
Theorem run_without_routes_raises
    (api_key : string) (inputs : UserInputs T) (w : World T) :
  status_code (route_response env api_key inputs (requests_sent w)) = 200%Z ->
  routes (json (route_response env api_key inputs (requests_sent w))) = [] ->
  run env api_key inputs w
  = (sent (EvGetDirections (ui_startloc inputs) (ui_endloc inputs) api_key) w,
     Raised IndexError).
Proof.
  intros Hok Hroutes. rewrite run_cases. cbv zeta.
  now rewrite bool_decide_eq_true_2, Hroutes.
Qed.


Lemma search_events_carry (self : POIloc T) (n : nat) (ws : list (Location T)) :
  Forall (carries self) (search_events env self n ws).
Proof.
  revert n. induction ws as [|wp ws IH]; intros n; [constructor|].
  cbn [search_events]. constructor; [cbn; auto|].
  apply Forall_app. split; [|apply IH].
  destruct (bool_decide _); repeat constructor.
Qed.

(** X20. Every nearby-search request of a run carries the same radius, the
    distance off the path times 1609.34 with no upper limit applied, and
    the keyword and key the run was given. *)
Theorem run_requests_carry_inputs
    (api_key : string) (inputs : UserInputs T) (w : World T) :
  exists evs,
    events (fst (run env api_key inputs w)) = events w ++ evs
    /\ Forall (carries (lookup_of api_key inputs [])) evs
    /\ poi_distoffpath (lookup_of api_key inputs [])
       = mul (ui_distoffpath inputs) miles_const.
Proof.
  rewrite run_cases. cbv zeta.
  destruct (bool_decide _); [destruct (routes _) as [|r0 rs]|].
  - eexists. split; [reflexivity|]. split; [repeat constructor | reflexivity].
  - eexists. split; [unfold sent; cbn [fst events]; rewrite <- !app_assoc; reflexivity|].
    split; [|reflexivity].
    apply Forall_app. split; [repeat constructor|].
    apply Forall_app. split.
    + apply (search_events_carry
               (lookup_of api_key inputs
                  (waypoints_after (Route_init (ui_startloc inputs) (ui_endloc inputs))
                     (json (route_response env api_key inputs (requests_sent w)))
                     (of_int 25)))).
    + unfold name_lines. apply Forall_map, Forall_forall. intros; exact I.
  - eexists. split; [unfold log, sent; cbn [fst events]; rewrite <- !app_assoc; reflexivity|].
    split; [repeat constructor | reflexivity].
Qed.

(** X21. A route that yields no waypoint (one shorter than 25 miles, say)
    makes the run end silently: the directions request is its only event. *)
Theorem run_silent_without_waypoints
    (api_key : string) (inputs : UserInputs T) (w : World T) :
  status_code (route_response env api_key inputs (requests_sent w)) = 200%Z ->
  routes (json (route_response env api_key inputs (requests_sent w))) <> [] ->
  waypoints_after (Route_init (ui_startloc inputs) (ui_endloc inputs))
    (json (route_response env api_key inputs (requests_sent w))) (of_int 25) = [] ->
  run env api_key inputs w
  = (sent (EvGetDirections (ui_startloc inputs) (ui_endloc inputs) api_key) w,
     Returned tt).
Proof.
  intros Hok Hroutes Hnone. rewrite run_cases. cbv zeta.
  rewrite bool_decide_eq_true_2 by exact Hok.
  destruct (routes _) as [|r0 rs] eqn:E; [congruence|].
  rewrite Hnone. unfold sent. cbn [length search_events found name_lines map events
                                    requests_sent stdin].
  now rewrite Nat.add_0_r, !app_nil_r.
Qed.

End Whole.

(** ** The further properties on concrete runs *)

Section FurtherRuns.

Lemma UserInputs_init_reads_four_lines_witness :
  UserInputs_init demo_env
    {| stdin := ["a"; "b"; "cafe"; "5"; "left over"]; requests_sent := 0; events := [] |}
  = ({| stdin := ["left over"]; requests_sent := 0; events := map EvInput prompts |},
     Returned demo_inputs).
Proof.
  exact (UserInputs_init_reads_four_lines demo_env
           {| stdin := ["a"; "b"; "cafe"; "5"; "left over"]; requests_sent := 0;
              events := [] |}
           "a" "b" "cafe" "5" ["left over"] 5%float eq_refl eq_refl).
Defined.

Lemma UserInputs_init_end_of_input_witness :
  exists w',
    UserInputs_init demo_env {| stdin := ["a"; "b"]; requests_sent := 0; events := [] |}
    = (w', Raised EOFError)
    /\ prompted (events w') = take 3 prompts.
Proof.
  destruct (UserInputs_init_end_of_input demo_env
              {| stdin := ["a"; "b"]; requests_sent := 0; events := [] |})
    as (w' & Hr & _ & Hp & _).
  - cbn. lia.
  - exists w'. split; [exact Hr | exact Hp].
Defined.

Lemma main_partial_arguments_as_none_witness :
  main demo_env "key" (Some "a") None (Some "cafe") (Some "")
  = main demo_env "key" None None None None.
Proof.
  apply (main_partial_arguments_as_none demo_env "key"
           (Some "a") None (Some "cafe") (Some "")).
  right. left. reflexivity.
Defined.

Lemma main_all_arguments_witness :
  main demo_env "key" (Some "a") (Some "b") (Some "cafe") (Some "far") fresh_world
  = (fresh_world, Raised ValueError).
Proof.
  apply (main_all_arguments demo_env "key" "a" "b" "cafe" "far" fresh_world);
    discriminate.
Defined.

Lemma search_waypoints_keeps_duplicates_witness :
  snd (search_waypoints steady_env demo_lookup routed_world)
  = Returned [ {[ "name" := "Diner" ]}; {[ "name" := "Museum" ]};
               {[ "name" := "Diner" ]}; {[ "name" := "Museum" ]};
               {[ "name" := "Diner" ]}; {[ "name" := "Museum" ]} ].
Proof.
  apply (search_waypoints_keeps_duplicates steady_env demo_lookup routed_world
           [ {[ "name" := "Diner" ]}; {[ "name" := "Museum" ]} ]).
  intros n location. reflexivity.
Defined.



Lemma run_without_routes_raises_witness :
  run demo_env "key"
    {| ui_startloc := "island"; ui_endloc := "b"; ui_keyword := "cafe";
       ui_distoffpath := 5%float |} fresh_world
  = (sent (EvGetDirections "island" "b" "key") fresh_world, Raised IndexError).
Proof.
  exact (run_without_routes_raises demo_env "key"
           {| ui_startloc := "island"; ui_endloc := "b"; ui_keyword := "cafe";
              ui_distoffpath := 5%float |} fresh_world eq_refl eq_refl).
Defined.

Lemma run_silent_without_waypoints_witness :
  run steady_env "key" demo_inputs fresh_world
  = (sent (EvGetDirections "a" "b" "key") fresh_world, Returned tt).
Proof.
  apply (run_silent_without_waypoints steady_env "key" demo_inputs fresh_world).
  - reflexivity.
  - discriminate.
  - reflexivity.
Defined.

End FurtherRuns.

(** * The running remainder, in the arithmetic of the program *)

Section Remainder.
Context {T : Type} `{Number T}.

Lemma fold_emitted (i : T) (ss : list (Step T)) (a : T) (w : list (Location T)) :
  snd (fold_left (step_body i) ss (a, w)) = w ++ emitted i a ss.
Proof.
  unfold emitted. revert a w. induction ss as [|s ss IH]; intros a w.
  - cbn. now rewrite app_nil_r.
  - cbn [fold_left]. unfold step_body at 2 4.
    destruct (ge (add a (div (distance_value s) miles_const)) i).
    + rewrite (IH _ (w ++ _)), (IH _ ([] ++ _)). now rewrite <- !app_assoc.
    + apply IH.
Qed.

Lemma emitted_cons (i a : T) (s : Step T) (ss : list (Step T)) :
  emitted i a (s :: ss)
  = if ge (add a (step_miles s)) i
    then step_end s :: emitted i (sub (add a (step_miles s)) i) ss
    else emitted i (add a (step_miles s)) ss.
Proof.
  unfold emitted at 1. cbn [fold_left]. unfold step_body at 2.
  fold (step_miles s). fold (step_end s).
  destruct (ge (add a (step_miles s)) i).
  - now rewrite fold_emitted.
  - reflexivity.
Qed.

Lemma waypoints_emitted (self : Route T) (route : Directions T) (i : T) :
  waypoints_after self route i = emitted i (of_int 0) (route_steps route).
Proof. apply calculate_waypoints_steps. Qed.


Lemma emitted_nil_iff (i : T) (ss : list (Step T)) (a : T) :
  emitted i a ss = [] <-> Forall (below i) (running_totals_from a ss).
Proof.
  revert a. induction ss as [|s ss IH]; intros a.
  - split; [constructor | reflexivity].
  - rewrite emitted_cons. cbn [running_totals_from].
    destruct (ge (add a (step_miles s)) i) eqn:E.
    + split; [discriminate|]. intros Hall. inversion Hall as [|? ? Hb _]; subst.
      unfold below in Hb. congruence.
    + rewrite IH. split.
      * intros Hall. now constructor.
      * intros Hall. now inversion Hall.
Qed.






(** X22. No waypoint is left exactly when the running total of the step
    miles, added in route order from 0, stays below the interval after
    every step. *)
Theorem no_waypoint_iff_totals_below
    (self : Route T) (route : Directions T) (interval_miles : T) :
  waypoints_after self route interval_miles = []
  <-> Forall (below interval_miles)
        (running_totals_from (of_int 0) (route_steps route)).
Proof. rewrite waypoints_emitted. apply emitted_nil_iff. Qed.

End Remainder.

(** ** With distances that are not negative *)

Section Ordered.
Context {T : Type} `{NumberOrder T}.

Lemma step_miles_not_negative (s : Step T) :
  not_negative (distance_value s) -> not_negative (step_miles s).
Proof. apply order_div. Qed.



(** At an interval that is not positive, every step leaves a waypoint. *)
Lemma nonpositive_every_step (i : T) (ss : list (Step T)) (a : T) :
  ge (of_int 0) i = true -> not_negative a -> no_negative_distance ss ->
  emitted i a ss = map step_end ss.
Proof.
  intros Hi. revert a. induction ss as [|s ss IH]; intros a Ha Hss; [reflexivity|].
  inversion Hss as [|? ? Hs Hss']; subst.
  pose proof (step_miles_not_negative s Hs) as Hd.
  pose proof (order_add a (step_miles s) Ha Hd) as Hge.
  assert (Ha' : not_negative (add a (step_miles s)))
    by exact (order_trans _ _ _ Hge Ha).
  rewrite emitted_cons, (order_trans _ _ _ Ha' Hi). cbn [map]. f_equal.
  apply IH; [|exact Hss']. now apply order_sub.
Qed.

End Ordered.

(** ** The rounding of binary64

    Facts about the specification of binary64 arithmetic ([SpecFloat]), to
    which the primitive operations conform ([FloatAxioms]). *)

Section SpecFloats.
Local Open Scope Z_scope.

Lemma digits2_pos_size (p : positive) : digits2_pos p = Pos.size p.
Proof. induction p; cbn; congruence. Qed.

Lemma Zdigits2_log2 (m : Z) : 0 < m -> Zdigits2 m = Z.log2 m + 1.
Proof.
  destruct m as [|p|p]; try lia. intros _. cbn [Zdigits2].
  rewrite digits2_pos_size. destruct p; cbn [Z.log2 Pos.size]; lia.
Qed.

Lemma fexp_eq (e : Z) : fexp prec emax e = Z.max (e - 53) (-1074).
Proof. reflexivity. Qed.

Lemma shr_1_m (mrs : shr_record) :
  0 <= shr_m mrs -> shr_m (shr_1 mrs) = Z.shiftr (shr_m mrs) 1.
Proof.
  rewrite <- Z.div2_spec.
  destruct mrs as [[|[p|p|]|p] r s]; cbn; intros; try reflexivity; lia.
Qed.

Lemma iter_pos_shr_m (p : positive) (mrs : shr_record) :
  0 <= shr_m mrs ->
  shr_m (SpecFloat.iter_pos shr_1 p mrs) = Z.shiftr (shr_m mrs) (Zpos p).
Proof.
  revert mrs. induction p as [p IH|p IH|]; intros mrs Hm; cbn [SpecFloat.iter_pos].
  - assert (H1 : 0 <= shr_m (shr_1 mrs))
      by (rewrite shr_1_m by assumption; now apply Z.shiftr_nonneg).
    assert (H2 : 0 <= shr_m (SpecFloat.iter_pos shr_1 p (shr_1 mrs)))
      by (rewrite IH by assumption; now apply Z.shiftr_nonneg).
    rewrite IH, IH, shr_1_m by assumption.
    rewrite !Z.shiftr_shiftr by lia. f_equal. lia.
  - assert (H2 : 0 <= shr_m (SpecFloat.iter_pos shr_1 p mrs))
      by (rewrite IH by assumption; now apply Z.shiftr_nonneg).
    rewrite IH, IH by assumption.
    rewrite !Z.shiftr_shiftr by lia. f_equal. lia.
  - now apply shr_1_m.
Qed.

Lemma shr_record_of_loc_m (m : Z) (l : location) : shr_m (shr_record_of_loc m l) = m.
Proof. destruct l as [|[]]; reflexivity. Qed.

Lemma shr_fexp_spec (m e : Z) (l : location) :
  0 <= m ->
  let e' := Z.max e (fexp prec emax (Zdigits2 m + e)) in
  shr_m (fst (shr_fexp prec emax m e l)) = Z.shiftr m (e' - e) /\
  snd (shr_fexp prec emax m e l) = e'.
Proof.
  intros Hm e'. unfold shr_fexp, shr.
  destruct (fexp prec emax (Zdigits2 m + e) - e) as [|p|p] eqn:E; cbn [fst snd].
  - replace (e' - e) with 0 by lia. rewrite shr_record_of_loc_m. split; [reflexivity | lia].
  - rewrite iter_pos_shr_m by (now rewrite shr_record_of_loc_m).
    rewrite shr_record_of_loc_m. replace (e' - e) with (Zpos p) by lia. split; [reflexivity | lia].
  - replace (e' - e) with 0 by lia. rewrite shr_record_of_loc_m. split; [reflexivity | lia].
Qed.

Lemma round_nearest_even_bounds (m : Z) (l : location) :
  m <= round_nearest_even m l <= m + 1.
Proof. destruct l as [|[]]; cbn; try destruct (Z.even m); lia. Qed.

Lemma binary_round_aux_cases (sx : bool) (mx ex : Z) (lx : location) :
  0 <= mx ->
  exists mr,
    let e1 := Z.max ex (fexp prec emax (Zdigits2 mx + ex)) in
    let e2 := Z.max e1 (fexp prec emax (Zdigits2 mr + e1)) in
    Z.shiftr mx (e1 - ex) <= mr <= Z.shiftr mx (e1 - ex) + 1 /\
    binary_round_aux prec emax sx mx ex lx =
      match Z.shiftr mr (e2 - e1) with
      | Z0 => S754_zero sx
      | Zpos m => if e2 <=? emax - prec then S754_finite sx m e2 else S754_infinity sx
      | Zneg _ => S754_nan
      end.
Proof.
  intros Hm. unfold binary_round_aux.
  destruct (shr_fexp_spec mx ex lx Hm) as [H1 H2].
  destruct (shr_fexp prec emax mx ex lx) as [mrs' e'] eqn:E1. cbn [fst snd] in H1, H2.
  set (mr := round_nearest_even (shr_m mrs') (loc_of_shr_record mrs')).
  exists mr. cbn zeta.
  pose proof (round_nearest_even_bounds (shr_m mrs') (loc_of_shr_record mrs')) as Hr.
  fold mr in Hr. rewrite H1 in Hr.
  assert (Hmr : 0 <= mr).
  { pose proof (proj2 (Z.shiftr_nonneg mx (Z.max ex (fexp prec emax (Zdigits2 mx + ex)) - ex)) Hm).
    lia. }
  split; [exact Hr|].
  destruct (shr_fexp_spec mr e' loc_Exact Hmr) as [H3 H4].
  destruct (shr_fexp prec emax mr e' loc_Exact) as [mrs'' e''] eqn:E2. cbn [fst snd] in H3, H4.
  rewrite H3, H4, H2. reflexivity.
Qed.


Lemma shiftr_rounded_pos (m e : Z) :
  1 <= m -> -1074 <= e ->
  1 <= Z.shiftr m (Z.max e (fexp prec emax (Zdigits2 m + e)) - e).
Proof.
  intros Hm He. rewrite Zdigits2_log2, fexp_eq by lia.
  pose proof (Z.log2_nonneg m) as Hl.
  destruct (Z.log2_spec m ltac:(lia)) as [Hlo _].
  set (n := Z.max e (Z.max (Z.log2 m + 1 + e - 53) (-1074)) - e).
  assert (Hn : 0 <= n <= Z.log2 m) by (unfold n; lia).
  rewrite Z.shiftr_div_pow2 by lia.
  apply Z.div_le_lower_bound; [apply Z.pow_pos_nonneg; lia|].
  pose proof (Z.pow_le_mono_r 2 n (Z.log2 m) ltac:(lia) ltac:(lia)). lia.
Qed.

Lemma iter_xO (p m : positive) : Zpos (Pos.iter xO m p) = Zpos m * 2 ^ Zpos p.
Proof.
  induction p as [|p IH] using Pos.peano_ind.
  - cbn [Pos.iter]. lia.
  - rewrite Pos.iter_succ, Pos2Z.inj_xO, IH, Pos2Z.inj_succ, Z.pow_succ_r by lia. lia.
Qed.

Lemma shl_align_down (mx : positive) (ex ez : Z) :
  ez <= ex -> Zpos (fst (shl_align mx ex ez)) = Zpos mx * 2 ^ (ex - ez).
Proof.
  intros Hle. unfold shl_align. destruct (ez - ex) as [|p|p] eqn:E; cbn [fst].
  - replace (ex - ez) with 0 by lia. lia.
  - lia.
  - rewrite iter_xO. f_equal. f_equal. lia.
Qed.

Lemma shl_align_up (mx : positive) (ex ez : Z) :
  ex <= ez -> shl_align mx ex ez = (mx, ex).
Proof. intros Hle. unfold shl_align. destruct (ez - ex) eqn:E; try reflexivity. lia. Qed.

Lemma canonical_exponent (m : positive) (e : Z) :
  canonical_mantissa prec emax m e = true ->
  e = Z.max (Z.log2 (Zpos m) + 1 + e - 53) (-1074).
Proof.
  unfold canonical_mantissa. intros Hc. apply Z.eqb_eq in Hc.
  change (Zpos (digits2_pos m)) with (Zdigits2 (Zpos m)) in Hc.
  rewrite Zdigits2_log2, fexp_eq in Hc by lia. lia.
Qed.

(** Rounding a value that is at least a representable number gives at least
    that number. *)
Lemma binary_round_ge (ma : positive) (ea : Z) (M : positive) (ez : Z) :
  canonical_mantissa prec emax ma ea = true ->
  -1074 <= ez <= ea ->
  Zpos ma * 2 ^ (ea - ez) <= Zpos M ->
  SFleb (S754_finite false ma ea) (binary_round prec emax false M ez) = true.
Proof.
  intros Hc Hez HM. apply canonical_exponent in Hc.
  assert (Hlog : Z.log2 (Zpos ma) + (ea - ez) <= Z.log2 (Zpos M)).
  { rewrite Z.add_comm, <- Z.log2_mul_pow2 by lia. now apply Z.log2_le_mono. }
  unfold binary_round.
  change (Zpos (digits2_pos M)) with (Zdigits2 (Zpos M)).
  assert (He1 : ea <= fexp prec emax (Zdigits2 (Zpos M) + ez))
    by (rewrite Zdigits2_log2, fexp_eq by lia; lia).
  rewrite shl_align_up by lia.
  destruct (binary_round_aux_cases false (Zpos M) ez loc_Exact ltac:(lia))
    as (mr & Hmr & ->).
  cbn zeta in Hmr.
  set (e1 := Z.max ez (fexp prec emax (Zdigits2 (Zpos M) + ez))) in *.
  assert (Hm1 : 1 <= Z.shiftr (Zpos M) (e1 - ez))
    by (apply shiftr_rounded_pos; lia).
  assert (He1' : -1074 <= e1) by lia.
  pose proof (shiftr_rounded_pos mr e1 ltac:(lia) He1') as Hm2.
  set (e2 := Z.max e1 (fexp prec emax (Zdigits2 mr + e1))) in *.
  destruct (Z.shiftr mr (e2 - e1)) as [|m|m] eqn:Em; try lia.
  destruct (e2 <=? emax - prec); [|reflexivity].
  unfold SFleb, SFcompare.
  destruct (Z.compare_spec ea e2) as [Heq|Hlt|Hgt]; [|reflexivity|lia].
  assert (e1 = ea) by lia. assert (e2 = e1) by lia.
  replace (e2 - e1) with 0 in Em by lia. rewrite Z.shiftr_0_r in Em.
  assert (Hma : Zpos ma <= Z.shiftr (Zpos M) (e1 - ez)).
  { rewrite Z.shiftr_div_pow2 by lia.
    apply Z.div_le_lower_bound; [apply Z.pow_pos_nonneg; lia|].
    replace (e1 - ez) with (ea - ez) by lia. lia. }
  assert (Hle : (ma <= m)%positive) by lia.
  change (Pos.compare_cont Eq ma m) with (ma ?= m)%positive.
  unfold Pos.le in Hle. destruct (ma ?= m)%positive; congruence.
Qed.

Lemma SFleb_refl_nonneg (x : spec_float) : sf_nonneg x -> SFleb x x = true.
Proof.
  destruct x as [s|s| |s m e]; cbn; try easy; intros ->; try reflexivity.
  unfold SFleb, SFcompare. rewrite Z.compare_refl.
  change (Pos.compare_cont Eq m m) with (m ?= m)%positive.
  now rewrite Pos.compare_refl.
Qed.

Lemma SFleb_nonneg (x y : spec_float) :
  sf_nonneg x -> SFleb x y = true -> sf_nonneg y.
Proof.
  destruct x as [s|s| |s m e], y as [s'|s'| |s' m' e']; cbn; try easy;
    try (intros ->); destruct s'; try easy; destruct s; easy.
Qed.

Lemma SFleb_zero (s : bool) (y : spec_float) :
  SFleb (S754_zero s) y = true <-> sf_nonneg y.
Proof. destruct y as [s'|s'| |s' m' e']; cbn; try easy; destruct s'; easy. Qed.

Lemma SFleb_nonpos_nonneg (x y : spec_float) :
  sf_nonpos x -> sf_nonneg y -> SFleb x y = true.
Proof.
  destruct x as [s|s| |s m e], y as [s'|s'| |s' m' e']; cbn; try easy;
    intros; subst; reflexivity.
Qed.

(** Adding a non-negative number never decreases a non-negative number. *)
Lemma SFadd_ge (a d : spec_float) :
  valid_binary a = true -> valid_binary d = true ->
  sf_nonneg a -> sf_nonneg d ->
  SFleb a (SF64add a d) = true.
Proof.
  intros Va Vd Na Nd.
  destruct a as [sa|sa| |sa ma ea], d as [sd|sd| |sd md ed]; cbn in Na, Nd; subst;
    try easy; try (destruct sa, sd; reflexivity); try (destruct sa; reflexivity);
    try (destruct sd; reflexivity).
  - now apply SFleb_refl_nonneg.
  - cbn in Va, Vd. apply andb_prop in Va as [Ca _]. apply andb_prop in Vd as [Cd _].
    pose proof (canonical_exponent _ _ Ca). pose proof (canonical_exponent _ _ Cd).
    unfold SF64add, SFadd, cond_Zopp.
    set (ez := Z.min ea ed).
    change (Zpos (fst (shl_align ma ea ez)) + Zpos (fst (shl_align md ed ez)))
      with (Zpos (fst (shl_align ma ea ez) + fst (shl_align md ed ez))).
    cbn [binary_normalize].
    apply binary_round_ge; [exact Ca | unfold ez; lia |].
    rewrite Pos2Z.inj_add, shl_align_down by (unfold ez; lia). lia.
Qed.


Lemma compare_cont_trans (c1 c2 c3 : comparison) (a b c : positive) :
  Pos.compare_cont Eq a b = c1 -> Pos.compare_cont Eq b c = c2 ->
  Pos.compare_cont Eq a c = c3 ->
  (c1 <> Gt -> c2 <> Gt -> c3 <> Gt) /\ (c1 <> Lt -> c2 <> Lt -> c3 <> Lt).
Proof.
  change (Pos.compare_cont Eq a b) with (a ?= b)%positive.
  change (Pos.compare_cont Eq b c) with (b ?= c)%positive.
  change (Pos.compare_cont Eq a c) with (a ?= c)%positive.
  intros <- <- <-.
  destruct (Pos.compare_spec a b), (Pos.compare_spec b c), (Pos.compare_spec a c);
    split; intros; try congruence; lia.
Qed.

Lemma SFleb_trans (x y z : spec_float) :
  SFleb x y = true -> SFleb y z = true -> SFleb x z = true.
Proof.
  destruct x as [s1|s1| |s1 m1 e1], y as [s2|s2| |s2 m2 e2], z as [s3|s3| |s3 m3 e3];
    try (destruct s1); try (destruct s2); try (destruct s3); cbn; try easy.
  all: destruct (Z.compare_spec e1 e2), (Z.compare_spec e2 e3), (Z.compare_spec e1 e3);
    try easy; try lia.
  all: destruct (compare_cont_trans _ _ _ m1 m2 m3 eq_refl eq_refl eq_refl) as [Hup Hdown];
    destruct (Pos.compare_cont Eq m1 m2), (Pos.compare_cont Eq m2 m3),
      (Pos.compare_cont Eq m1 m3); cbn; try easy;
    try (exfalso; apply Hup; congruence); try (exfalso; apply Hdown; congruence).
Qed.

Lemma binary_round_aux_sign (sx : bool) (mx ex : Z) (lx : location) :
  0 <= mx ->
  match binary_round_aux prec emax sx mx ex lx with
  | S754_zero s | S754_infinity s | S754_finite s _ _ => s = sx
  | S754_nan => False
  end.
Proof.
  intros Hm. destruct (binary_round_aux_cases sx mx ex lx Hm) as (mr & Hmr & ->).
  cbn zeta in *.
  set (e1 := Z.max ex (fexp prec emax (Zdigits2 mx + ex))) in *.
  set (e2 := Z.max e1 (fexp prec emax (Zdigits2 mr + e1))).
  assert (0 <= Z.shiftr mx (e1 - ex)) by now apply Z.shiftr_nonneg.
  assert (0 <= Z.shiftr mr (e2 - e1)) by (apply Z.shiftr_nonneg; lia).
  destruct (Z.shiftr mr (e2 - e1)); try lia; try reflexivity.
  now destruct (e2 <=? emax - prec).
Qed.

Lemma binary_round_sign (sx : bool) (m : positive) (e : Z) :
  match binary_round prec emax sx m e with
  | S754_zero s | S754_infinity s | S754_finite s _ _ => s = sx
  | S754_nan => False
  end.
Proof.
  unfold binary_round. destruct (shl_align m e _) as [mz ez].
  apply binary_round_aux_sign. lia.
Qed.

Lemma SFdiv_nonneg (x : spec_float) (m : positive) (e : Z) :
  sf_nonneg x -> sf_nonneg (SF64div x (S754_finite false m e)).
Proof.
  destruct x as [s|s| |s mx ex]; cbn; try easy; intros ->; [reflexivity|].
  unfold SF64div, SFdiv.
  destruct (SFdiv_core_binary prec emax (Zpos mx) ex (Zpos m) e) as [[q e'] l] eqn:E.
  assert (Hq : 0 <= q).
  { unfold SFdiv_core_binary in E.
    set (m' := match _ - _ - _ with Z0 => Zpos mx | Zpos _ => _ | Zneg _ => 0 end) in E.
    assert (Hm' : 0 <= m').
    { unfold m'. destruct (_ - _ - _); try lia. apply Z.shiftl_nonneg. lia. }
    pose proof (Z.div_pos m' (Zpos m) Hm' ltac:(lia)) as Hd.
    unfold Z.div in Hd. destruct (Z.div_eucl m' (Zpos m)) as [q' r'].
    injection E as <- _ _. exact Hd. }
  pose proof (binary_round_aux_sign (xorb false false) q e' l Hq) as Hs.
  destruct (binary_round_aux prec emax (xorb false false) q e' l); cbn; easy.
Qed.

Lemma SFadd_nonneg (a d : spec_float) :
  valid_binary a = true -> valid_binary d = true ->
  sf_nonneg a -> sf_nonneg d -> sf_nonneg (SF64add a d).
Proof. intros Va Vd Na Nd. eapply SFleb_nonneg; [exact Na | now apply SFadd_ge]. Qed.

Lemma SFsub_nonneg (x i : spec_float) :
  sf_nonneg x -> sf_nonpos i -> sf_nonneg (SF64sub x i).
Proof.
  destruct x as [sx|sx| |sx mx ex], i as [si|si| |si mi ei]; cbn; try easy;
    intros; subst; cbn; try easy; try (destruct sx, si; easy).
  unfold cond_Zopp.
  change (Zpos (fst (shl_align mx ex (Z.min ex ei))) - - Zpos (fst (shl_align mi ei (Z.min ex ei))))
    with (Zpos (fst (shl_align mx ex (Z.min ex ei)) + fst (shl_align mi ei (Z.min ex ei)))).
  cbn [binary_normalize].
  pose proof (binary_round_sign false
    (fst (shl_align mx ex (Z.min ex ei)) + fst (shl_align mi ei (Z.min ex ei)))
    (Z.min ex ei)) as Hs.
  destruct (binary_round _ _ _ _ _); easy.
Qed.

End SpecFloats.

(** ** The order facts hold in both arithmetics *)

Section Orders.

Lemma Prim2SF_zero : Prim2SF (float_of_int 0) = S754_zero false.
Proof. reflexivity. Qed.

Lemma not_negative_binary64 (x : float) : not_negative x <-> sf_nonneg (Prim2SF x).
Proof.
  unfold not_negative. cbn [ge of_int binary64].
  rewrite leb_spec, Prim2SF_zero. apply SFleb_zero.
Qed.

Lemma not_positive_binary64 (x : float) :
  ge (of_int 0) x = true <-> sf_nonpos (Prim2SF x).
Proof.
  cbn [ge of_int binary64]. rewrite leb_spec, Prim2SF_zero.
  destruct (Prim2SF x) as [s|s| |s m e]; cbn; try easy; destruct s; easy.
Qed.

#[export] Instance binary64_order : NumberOrder float.
Proof.
  split.
  - reflexivity.
  - intros x Hx. apply not_negative_binary64 in Hx.
    cbn [ge binary64]. rewrite leb_spec. now apply SFleb_refl_nonneg.
  - intros x y z. cbn [ge binary64]. rewrite !leb_spec. intros Hxy Hyz.
    exact (SFleb_trans _ _ _ Hyz Hxy).
  - intros d Hd. apply not_negative_binary64 in Hd. apply not_negative_binary64.
    cbn [div miles_const binary64]. rewrite div_spec.
    let c := eval vm_compute in (Prim2SF 0x1.9255c28f5c28fp+10) in
    change (Prim2SF 0x1.9255c28f5c28fp+10) with c.
    now apply SFdiv_nonneg.
  - intros a d Ha Hd. apply not_negative_binary64 in Ha, Hd.
    cbn [ge add binary64]. rewrite leb_spec, add_spec.
    apply SFadd_ge; auto using Prim2SF_valid.
  - intros x i Hx Hi. apply not_negative_binary64 in Hx.
    apply not_positive_binary64 in Hi. apply not_negative_binary64.
    cbn [sub binary64]. rewrite sub_spec. now apply SFsub_nonneg.
Qed.

#[export] Instance exact_order : NumberOrder Q.
Proof.
  split; unfold not_negative; cbn [ge of_int div add sub miles_const exact].
  - reflexivity.
  - intros x _. apply Qle_bool_iff. apply Qle_refl.
  - intros x y z Hxy Hyz. apply Qle_bool_iff. apply Qle_bool_iff in Hxy, Hyz.
    now apply Qle_trans with y.
  - intros d Hd. apply Qle_bool_iff. apply Qle_bool_iff in Hd.
    apply Qle_shift_div_l; [reflexivity|]. now rewrite Qmult_0_l.
  - intros a d Ha Hd. apply Qle_bool_iff. apply Qle_bool_iff in Hd.
    change (inject_Z 0) with 0%Q in Hd. lra.
  - intros x i Hx Hi. apply Qle_bool_iff. apply Qle_bool_iff in Hx, Hi.
    change (inject_Z 0) with 0%Q in *. lra.
Qed.

End Orders.

(** ** The binary64 run *)

Section Binary64Run.



(** X6. In the arithmetic of the program: with an interval that is zero or
    negative and no negative step distance, every step leaves a waypoint. *)
Theorem nonpositive_interval_every_step_binary64
    (self : Route float) (route : Directions float) (interval_miles : float) :
  ge (of_int 0) interval_miles = true ->
  no_negative_distance (route_steps route) ->
  waypoints_after self route interval_miles = map step_end (route_steps route).
Proof.
  intros Hi Hss. rewrite waypoints_emitted.
  apply nonpositive_every_step; [exact Hi | apply order_zero | exact Hss].
Qed.


Lemma nonpositive_interval_every_step_binary64_witness :
  waypoints_after (Route_init "a" "b") two_steps_f (of_int (-25))
  = [(1%float, 1%float); (2%float, 2%float)].
Proof.
  apply (nonpositive_interval_every_step_binary64 (Route_init "a" "b") two_steps_f
           (of_int (-25))).
  - reflexivity.
  - repeat constructor.
Defined.

(** X23. Where binary64 and exact arithmetic part.  On the fifty miles of
    [fifty_miles_f], whose steps are whole metres and shorter than the
    interval, the run leaves two waypoints, the second at a running total
    below two intervals: the bounds of [waypoint_marks_lower_bound],
    [waypoints_at_most_floor] and [short_steps_floor] do not carry over. *)
Example exact_bounds_fail_in_binary64 (self : Route float) :
  no_negative_distance (route_steps fifty_miles_f)
  /\ Forall (fun s => ge (of_int 25) (step_miles s) = true) (route_steps fifty_miles_f)
  /\ length (waypoints_after self fifty_miles_f (of_int 25)) = 2%nat
  /\ map fst (waypoint_marks fifty_miles_f (of_int 25))
     = [0x1.cb7a50fe286f9p+4%float; 0x1.8ffffffffffffp+5%float]
  /\ total_miles fifty_miles_f = 0x1.8ffffffffffffp+5%float
  /\ PrimFloat.ltb (total_miles fifty_miles_f) (mul (of_int 2) (of_int 25)) = true
  /\ PrimFloat.div (total_miles fifty_miles_f) (of_int 25) = 0x1.fffffffffffffp+0%float.
Proof.
  rewrite waypoints_emitted.
  split; [repeat (constructor; [reflexivity|]); constructor|].
  split; [repeat (constructor; [reflexivity|]); constructor|].
  repeat split; vm_compute; reflexivity.
Qed.

(** On [nearly_one_interval_f] the total is below 25 miles in exact
    arithmetic, with 1609.34 read as 160934/100 and also with the exact
    value of its binary64 literal; the binary64 total is 25, and the run
    leaves a waypoint.  [calculate_waypoints_empty] does not carry over:
    what decides is the total as the run rounds it. *)
Example rounding_reaches_interval (self : Route float) :
  (total_miles nearly_one_interval_q < of_int 25)%Q
  /\ ((1196 + (5365273146163199 # 137438953472))
        / (7077952172180111 # 4398046511104) < 25)%Q
  /\ total_miles nearly_one_interval_f = 25%float
  /\ waypoints_after self nearly_one_interval_f (of_int 25) = [(2%float, 2%float)].
Proof.
  rewrite waypoints_emitted. repeat split; vm_compute; reflexivity.
Qed.

(** [float_of_int] beyond 2^53 and 2^63: nearest value, ties to even. *)
Example float_of_int_large :
  float_of_int (2 ^ 53 + 1) = 0x1p+53%float
  /\ float_of_int (2 ^ 53 + 3) = 0x1.0000000000002p+53%float
  /\ float_of_int (2 ^ 63) = 0x1p+63%float
  /\ float_of_int (- 2 ^ 64) = (- 0x1p+64)%float.
Proof. repeat split; vm_compute; reflexivity. Qed.

End Binary64Run.
